(** * News monitor: link extraction, change detection, content rendering

    A shallow embedding of [app.py]: the scraping functions
    ([create_context], [prepare_page_for_site], [fetch_links],
    [fetch_article_reader_mode], [fetch_article_html]), the body of the
    "Check now" handler, and the rest of the script ([load_json],
    [save_json], the "Add URL" handler, the buttons of the new articles),
    with the properties of the design document and further properties of
    the code proved about them.

    Conventions of the embedding.
    - Python exceptions of class [Exception] are values [Raise e] of the
      type [outcome], where [e] is the text [str(e)] of the exception;
      [try ... except Exception] is [try_except].  Exceptions outside
      [Exception] (keyboard interrupt, interpreter exit) are not modelled.
    - The browser (Playwright), the URL parser and the readability
      libraries are not code of this program: they are the fields of the
      classes [Playwright] and [Readability], and every result below holds
      for all instances.  A call is deterministic in its arguments, and a
      call that raises leaves the page value as it was.
    - Streamlit output is a log of [ui_event]s, written in the monad [ui].
    - The state file is a finite map from url to the list of urls stored
      for it; writing it back is taken to succeed.  Python's [list(s)] of
      a set is a parameter [list_of_set], of which the proofs only use
      that it lists the elements of the set once each.
    - [print] writes to the standard output of the process, or raises
      when that cannot be written; it is the field [print_stdout]. *)

From Stdlib Require Import Ascii.
From stdpp Require Import base option list strings gmap pretty.

(** ** Exceptions *)

Inductive outcome (A : Type) : Type :=
| Return (a : A)
| Raise (e : string).
Arguments Return {A} a.
Arguments Raise {A} e.

Global Instance outcome_ret : MRet outcome := λ A a, Return a.
Global Instance outcome_bind : MBind outcome := λ A B f m,
  match m with
  | Return a => f a
  | Raise e => Raise e
  end.

(** [try: body except Exception as e: handler e] *)
Definition try_except {A} (body : outcome A) (handler : string → outcome A)
  : outcome A :=
  match body with
  | Return a => Return a
  | Raise e => handler e
  end.

(** [try: body except: pass], for a body that updates the value [a]. *)
Definition try_pass {A} (a : A) (body : outcome A) : A :=
  match body with
  | Return a' => a'
  | Raise _ => a
  end.

(** ** Streamlit output *)

Inductive ui_event : Type :=
| St_write (s : string)
| St_error (s : string)
| St_success (s : string).

Definition ui (A : Type) : Type := (outcome A * list ui_event)%type.

Global Instance ui_ret : MRet ui := λ A a, (Return a, []).
Global Instance ui_bind : MBind ui := λ A B f m,
  match m with
  | (Return a, log) => let '(r, log') := f a in (r, log ++ log')
  | (Raise e, log) => (Raise e, log)
  end.

Definition lift {A} (m : outcome A) : ui A := (m, []).
Definition emit (ev : ui_event) : ui unit := (Return (), [ev]).

Definition ui_try_except {A} (body : ui A) (handler : string → ui A) : ui A :=
  match body with
  | (Return a, log) => (Return a, log)
  | (Raise e, log) => let '(r, log') := handler e in (r, log ++ log')
  end.

(** ** Data *)

Module Article.
(** The objects the in-page callback builds: [{title: ..., url: ...}]. *)
Record t : Type := mk { title : string; url : string }.

Global Instance eq_dec : EqDecision t.
Proof. solve_decision. Defined.
End Article.

Module Node.
(** What the callback reads of a matched element. *)
Record t : Type := mk { innerText : string; href : string }.
End Node.

(** Keyword arguments of [browser.new_context]. *)
Record context_options : Type := {
  user_agent : string;
  viewport : Z * Z;
  locale : string;
  timezone_id : string
}.

(** ** The libraries the program calls *)

Class Playwright : Type := {
  browser : Type;
  context : Type;
  page : Type;
  (** entering and leaving [with sync_playwright() as p] *)
  sync_playwright_enter : outcome unit;
  sync_playwright_exit : outcome unit;
  (** [p.chromium.launch(headless=True)] *)
  chromium_launch : outcome browser;
  new_context : browser → option context_options → outcome context;
  new_page : context → outcome page;
  (** [page.goto(url, timeout=60000, wait_until="domcontentloaded")] *)
  goto : page → string → outcome page;
  wait_for_selector : page → string → Z → outcome page;
  evaluate : page → string → outcome page;
  wait_for_timeout : page → Z → outcome page;
  (** the elements [page.eval_on_selector_all] hands to its callback, in
      document order; [Raise] when the selector or the callback fails *)
  query_selector_all : page → string → outcome (list Node.t);
  (** [String.prototype.trim] of the page's script engine *)
  js_trim : string → string;
  content : page → outcome string;
  browser_close : browser → outcome unit;
  (** [urlparse(url).netloc] *)
  urlparse_netloc : string → outcome string;
  (** [print(text, articles)] on the standard output of the process *)
  print_stdout : string → list Article.t → outcome unit
}.

Class Readability : Type := {
  document : Type;
  soup : Type;
  Document : string → outcome document;
  summary : document → outcome string;
  doc_title : document → outcome string;
  BeautifulSoup : string → string → outcome soup;
  soup_str : soup → outcome string
}.

(** ** Per-site configuration *)

Definition SITE_SELECTORS : gmap string (list string) :=
  list_to_map [
    ("apnews.com", ["a[href^='https://apnews.com/article/']"]);
    ("news.sky.com", ["a.sdc-site-tile__headline-link"]);
    ("www.npr.org", ["h2.title a"]);
    ("www.upi.com", ["a[href*='/Odd_News/']"]);
    ("nypost.com", ["a[href*='/weird-but-true/']"]);
    ("www.huffpost.com", ["a[href*='/entry/']"; "a[href*='/weird-news/']"]);
    ("www.scmp.com", ["a[href*='/offbeat/']"])
  ].

Definition GENERIC_SELECTORS : list string := [
  "a[href*='/article']";
  "a[href*='/story/']";
  "a[href*='/weird']";
  "a[href*='/Odd_News']";
  "a[href*='/offbeat']";
  "h3 a";
  "article a"
].

(** Python's [needle in hay] on strings. *)
Fixpoint str_in (needle hay : string) : bool :=
  String.prefix needle hay ||
  match hay with
  | EmptyString => false
  | String _ rest => str_in needle rest
  end.

(** ** Playwright helpers *)

Section Scraping.
Context `{PW : Playwright}.

(** [with sync_playwright() as p: body]: the exit runs on both paths, and
    an exception of the exit replaces the one of the body. *)
Definition with_sync_playwright {A} (body : outcome A) : outcome A :=
  _ ← sync_playwright_enter;
  match body with
  | Return a => _ ← sync_playwright_exit; Return a
  | Raise e =>
      match sync_playwright_exit with
      | Return _ => Raise e
      | Raise e' => Raise e'
      end
  end.

Definition upi_options : context_options := {|
  user_agent :=
    "Mozilla/5.0 (Windows NT 10.0; Win64; x64) " +:+
    "AppleWebKit/537.36 (KHTML, like Gecko) " +:+
    "Chrome/120.0.0.0 Safari/537.36";
  viewport := (1280, 900)%Z;
  locale := "en-US";
  timezone_id := "America/New_York"
|}.

Definition create_context (url : string) : outcome (browser * context) :=
  br ← chromium_launch;
  domain ← urlparse_netloc url;
  ctx ← (if str_in "upi.com" domain
         then new_context br (Some upi_options)
         else new_context br None);
  Return (br, ctx).

Definition prepare_page_for_site (pg : page) (url : string) : outcome page :=
  domain ← urlparse_netloc url;
  let pg :=
    if str_in "npr.org" domain
    then try_pass pg (wait_for_selector pg "h2.title a" 5000)
    else pg in
  let pg :=
    if str_in "news.sky.com" domain
    then
      match evaluate pg "window.scrollTo(0, document.body.scrollHeight)" with
      | Return pg' => try_pass pg' (wait_for_timeout pg' 1500)
      | Raise _ => pg
      end
    else pg in
  Return pg.

(** ** Scraping functions *)

(** The callback of [eval_on_selector_all]:
    [nodes.map(a => ({title: a.innerText.trim(), url: a.href}))
          .filter(x => x.title && x.url)]. *)
Definition js_callback (nodes : list Node.t) : list Article.t :=
  filter (λ x, Article.title x ≠ "" ∧ Article.url x ≠ "")
    ((λ a, Article.mk (js_trim (Node.innerText a)) (Node.href a)) <$> nodes).

Definition eval_on_selector_all (pg : page) (sel : string)
  : outcome (list Article.t) :=
  nodes ← query_selector_all pg sel;
  Return (js_callback nodes).

(** One turn of the selector loop: [Some links] on [break], [None] when
    the loop goes on ([links] empty, or [continue] in the handler). *)
Definition try_selector (pg : page) (sel : string)
  : outcome (option (list Article.t)) :=
  try_except
    (links ← eval_on_selector_all pg sel;
     if bool_decide (links ≠ []) then Return (Some links) else Return None)
    (λ _, Return None).

(** [for sel in selectors: ...], started with [articles = []].  The second
    component lists the selectors handed to the browser, in order. *)
Fixpoint selector_loop (pg : page) (selectors : list string)
  : outcome (list Article.t * list string) :=
  match selectors with
  | [] => Return ([], [])
  | sel :: rest =>
      r ← try_selector pg sel;
      match r with
      | Some links => Return (links, [sel])
      | None =>
          '(articles, asked) ← selector_loop pg rest;
          Return (articles, sel :: asked)
      end
  end.

(** [SITE_SELECTORS.get(domain, []) + GENERIC_SELECTORS] *)
Definition selectors_for (domain : string) : list string :=
  default [] (SITE_SELECTORS !! domain) ++ GENERIC_SELECTORS.

(** The page [fetch_links] queries: everything up to the selector loop. *)
Definition open_page (url : string) : outcome (browser * page) :=
  '(br, ctx) ← create_context url;
  pg ← new_page ctx;
  pg ← goto pg url;
  pg ← prepare_page_for_site pg url;
  Return (br, pg).

(** The body of the [try] of [fetch_links]. *)
Definition fetch_links_try (url : string) : outcome (list Article.t) :=
  with_sync_playwright (
    '(br, pg) ← open_page url;
    domain ← urlparse_netloc url;
    let selectors := selectors_for domain in
    '(articles, _) ← selector_loop pg selectors;
    _ ← browser_close br;
    let articles := take 10 articles in
    _ ← print_stdout ("Scraped from " +:+ url +:+ ":") articles;
    Return articles).

Definition fetch_links (url : string) : ui (list Article.t) :=
  ui_try_except
    (lift (fetch_links_try url))
    (λ e,
      _ ← emit (St_error ("Error scraping " +:+ url +:+ ": " +:+ e));
      mret []).

End Scraping.

(** ** Article content *)

Section Content.
Context `{PW : Playwright} `{RD : Readability}.

(** The body of the [try] of [fetch_article_reader_mode]. *)
Definition fetch_article_reader_mode_try (url : string) : outcome string :=
  html ← with_sync_playwright (
    '(br, ctx) ← create_context url;
    pg ← new_page ctx;
    pg ← goto pg url;
    html ← content pg;
    _ ← browser_close br;
    Return html);
  doc ← Document html;
  cleaned_html ← summary doc;
  title ← doc_title doc;
  sp ← BeautifulSoup cleaned_html "html.parser";
  body ← soup_str sp;
  Return ("<h1>" +:+ title +:+ "</h1>" +:+ body).

Definition fetch_article_reader_mode (url : string) : outcome string :=
  try_except
    (fetch_article_reader_mode_try url)
    (λ e, Return ("<p>Error loading article: " +:+ e +:+ "</p>")).

(** The body of the [try] of [fetch_article_html].  The script is passed
    to the browser as an opaque text; the white space around it in the
    source is left out. *)
Definition fetch_article_html_try (url : string) : outcome string :=
  with_sync_playwright (
    '(br, ctx) ← create_context url;
    pg ← new_page ctx;
    pg ← goto pg url;
    pg ← evaluate pg
      "document.querySelectorAll('script, iframe, noscript').forEach(e => e.remove());";
    html ← content pg;
    _ ← browser_close br;
    Return html).

Definition fetch_article_html (url : string) : outcome string :=
  try_except
    (fetch_article_html_try url)
    (λ e, Return ("<p>Error loading article: " +:+ e +:+ "</p>")).

(** The choice both viewers make on the radio button:
    [if mode == "HTML": fetch_article_html(url)
     else: fetch_article_reader_mode(url)]. *)
Definition view_article (mode url : string) : outcome string :=
  if bool_decide (mode = "HTML")
  then fetch_article_html url
  else fetch_article_reader_mode url.

Definition view_article_try (mode url : string) : outcome string :=
  if bool_decide (mode = "HTML")
  then fetch_article_html_try url
  else fetch_article_reader_mode_try url.

End Content.

(** ** The "Check now" handler *)

(** The variables the loop of the handler updates. *)
Record loop_vars : Type := {
  state : gmap string (list string);
  new_articles_global : list Article.t
}.

(** What the handler leaves behind: the state written to the state file
    and [st.session_state["new_articles"]]. *)
Record check_result : Type := {
  saved_state : gmap string (list string);
  session_new_articles : list Article.t
}.

Section CheckNow.
Context `{PW : Playwright}.

(** Python's [list(s)] of a set [s]: the elements of [s] once each, in an
    order the language leaves open. *)
Variable list_of_set : gset string → list string.

(** The body of [for url in urls], after [articles = fetch_links(url)]. *)
Definition check_body (url : string) (articles : list Article.t)
    (v : loop_vars) : loop_vars :=
  if bool_decide (articles = []) then v
  else
    let current_urls : gset string :=
      list_to_set (Article.url <$> articles) in
    match state v !! url with
    | None =>
        let new_articles := articles in
        {| state := <[url := list_of_set current_urls]> (state v);
           new_articles_global := new_articles_global v ++ new_articles |}
    | Some stored =>
        let old_urls : gset string := list_to_set stored in
        let new_urls := current_urls ∖ old_urls in
        let new_articles :=
          filter (λ a, Article.url a ∈ new_urls) articles in
        {| state := <[url := list_of_set current_urls]> (state v);
           new_articles_global := new_articles_global v ++ new_articles |}
    end.

Fixpoint check_loop (urls : list string) (v : loop_vars) : ui loop_vars :=
  match urls with
  | [] => mret v
  | url :: rest =>
      _ ← emit (St_write ("🔍 " +:+ url));
      articles ← fetch_links url;
      check_loop rest (check_body url articles v)
  end.

Definition check_now (urls : list string)
    (state0 : gmap string (list string)) : ui check_result :=
  _ ← emit (St_write "Checking…");
  v ← check_loop urls {| state := state0; new_articles_global := [] |};
  _ ← emit (St_success "Done!");
  _ ← emit (if bool_decide (new_articles_global v ≠ [])
            then St_write "✅ New articles found:"
            else St_write "ℹ️ No new articles found.");
  mret {| saved_state := state v;
          session_new_articles := new_articles_global v |}.

End CheckNow.

(** ** Predicates the statements use *)

Section Predicates.
Context `{PW : Playwright}.

(** The rule [sel] contributes nothing on [pg]: its query raises, or no
    match survives the callback. *)
Definition no_links (pg : page) (sel : string) : Prop :=
  match query_selector_all pg sel with
  | Return nodes => js_callback nodes = []
  | Raise _ => True
  end.

(** Every step of [fetch_links] around the selector loop succeeds: the
    session up to the loop, the closing of the browser, the [print] of
    the list the loop found, and the exit. *)
Definition session_ok (url : string) (br : browser) (pg : page)
    (domain : string) : Prop :=
  sync_playwright_enter = Return () ∧
  open_page url = Return (br, pg) ∧
  urlparse_netloc url = Return domain ∧
  browser_close br = Return () ∧
  (∀ found asked,
      selector_loop pg (selectors_for domain) = Return (found, asked) →
      print_stdout ("Scraped from " +:+ url +:+ ":") (take 10 found)
      = Return ()) ∧
  sync_playwright_exit = Return ().

(** The list [fetch_links] hands to the handler. *)
Definition fetched (url : string) : list Article.t :=
  match (fetch_links url).1 with
  | Return articles => articles
  | Raise _ => []
  end.

(** The loop of the handler as a fold of its body. *)
Definition run_loop (list_of_set : gset string → list string)
    (urls : list string) (v : loop_vars) : loop_vars :=
  foldl (λ v url, check_body list_of_set url (fetched url) v) v urls.

End Predicates.

(** The set a stored list stands for: [set(state[url])]. *)
Definition snapshot (st : gmap string (list string)) (url : string)
  : option (gset string) :=
  list_to_set <$> st !! url.

(** ** A small instance to run the definitions on *)

Module Demo.

Definition white_space (c : ascii) : bool :=
  let n := nat_of_ascii c in
  ((9 <=? n) && (n <=? 13)) || (n =? 32).

Fixpoint trim_start (s : string) : string :=
  match s with
  | String c rest => if white_space c then trim_start rest else s
  | EmptyString => EmptyString
  end.

Definition trim (s : string) : string :=
  String.rev (trim_start (String.rev (trim_start s))).

Fixpoint after_slashes (s : string) : string :=
  match s with
  | String "/"%char (String "/"%char rest) => rest
  | String _ rest => after_slashes rest
  | EmptyString => EmptyString
  end.

Fixpoint until_slash (s : string) : string :=
  match s with
  | String "/"%char _ => EmptyString
  | String c rest => String c (until_slash rest)
  | EmptyString => EmptyString
  end.

Definition netloc (url : string) : string := until_slash (after_slashes url).

Definition entry (name : string) : Node.t :=
  Node.mk ("  Story " +:+ name +:+ " ")
          ("https://www.huffpost.com/weird-news/" +:+ name).

Definition twelve : list Node.t :=
  entry <$> ["a"; "b"; "c"; "d"; "e"; "f"; "g"; "h"; "i"; "j"; "k"; "l"].

(** Pages are named by the url they were loaded from. *)
Definition query (pg sel : string) : outcome (list Node.t) :=
  if bool_decide (pg = "https://www.huffpost.com/weird-news") then
    if bool_decide (sel = "a[href*='/entry/']")
    then Return [Node.mk "   " "https://www.huffpost.com/entry/x";
                 Node.mk "Untitled" ""]
    else if bool_decide (sel = "a[href*='/weird-news/']") then Return twelve
    else if bool_decide (sel = "h3 a")
    then Return [Node.mk "Elsewhere" "https://www.huffpost.com/other"]
    else Return []
  else if bool_decide (pg = "https://example.com/news") then
    if bool_decide (sel = "a[href*='/article']")
    then Raise "Unexpected token while parsing selector"
    else if bool_decide (sel = "h3 a")
    then Return [Node.mk "A" "u1"; Node.mk " B " "u2"]
    else if bool_decide (sel = "article a")
    then Return [Node.mk "Z" "u9"]
    else Return []
  else Return [].

Definition load (pg url : string) : outcome string :=
  if String.prefix "https://down." url
  then Raise "net::ERR_NAME_NOT_RESOLVED"
  else Return url.

Global Instance playwright : Playwright := {|
  browser := unit;
  context := unit;
  page := string;
  sync_playwright_enter := Return ();
  sync_playwright_exit := Return ();
  chromium_launch := Return ();
  new_context := λ _ _, Return ();
  new_page := λ _, Return "about:blank";
  goto := load;
  wait_for_selector := λ pg _ _, Return pg;
  evaluate := λ pg _, Return pg;
  wait_for_timeout := λ pg _, Return pg;
  query_selector_all := query;
  js_trim := trim;
  content := λ pg, Return ("<html>" +:+ pg +:+ "</html>");
  browser_close := λ _, Return ();
  urlparse_netloc := λ url, Return (netloc url);
  print_stdout := λ _ _, Return ()
|}.

Global Instance readability : Readability := {|
  document := string;
  soup := string;
  Document := λ html, Return html;
  summary := λ doc,
    if str_in "down" doc then Raise "Unparseable" else Return doc;
  doc_title := λ _, Return "Title";
  BeautifulSoup := λ html _, Return html;
  soup_str := λ sp, Return sp
|}.

Definition A1 : Article.t := Article.mk "A" "u1".
Definition B2 : Article.t := Article.mk "B" "u2".
Definition C3 : Article.t := Article.mk "C" "u3".

Definition huffpost : string := "https://www.huffpost.com/weird-news".
Definition example_news : string := "https://example.com/news".

Definition seen_u1_u2 : loop_vars :=
  {| state := {[ "example.com" := ["u1"; "u2"] ]};
     new_articles_global := [] |}.

End Demo.

(** ** The rest of the script *)

(** *** Helpers for saving and loading

    [json.dump] and [json.load] are library code: the text [json_dump]
    writes for a value and the value [json_load] reads from a text, or
    the exception it raises on a text that is no JSON.  [os.path.exists]
    and [open] resolve a path to a file, and several paths can name one
    file: [file_of] is the file a path names.  The files are a map from
    the files that exist to their text; opening a file is taken to
    succeed. *)

Class Json (data : Type) : Type := {
  json_dump : data → string;
  json_load : string → outcome data
}.

Class FileNames : Type := {
  file_of : string → string
}.

Section Files.
Context {data : Type} `{JS : Json data} `{FN : FileNames}.

Definition load_json (files : gmap string string) (path : string)
    (default : data) : outcome data :=
  match files !! file_of path with
  | Some text => json_load text
  | None => Return default
  end.

Definition save_json (files : gmap string string) (path : string)
    (d : data) : gmap string string :=
  <[file_of path := json_dump d]> files.

End Files.

(** *** The "Add URL" handler *)

Inductive add_notice : Type :=
| Notice_success (s : string)
| Notice_warning (s : string).

(** What the handler leaves behind: the list [urls], the list handed to
    [save_json(URLS_FILE, urls)] if it was called, and the message shown. *)
Record add_result : Type := {
  urls_after : list string;
  urls_saved : option (list string);
  add_shown : add_notice
}.

Definition add_url (new_url : string) (urls : list string) : add_result :=
  if bool_decide (new_url ≠ "" ∧ new_url ∉ urls)
  then {| urls_after := urls ++ [new_url];
          urls_saved := Some (urls ++ [new_url]);
          add_shown := Notice_success "Added!" |}
  else {| urls_after := urls;
          urls_saved := None;
          add_shown := Notice_warning "URL already exists or empty" |}.

(** *** The buttons of the new articles *)

(** [f"{art['url']}_{i}"], for the index [i] that [enumerate] gives. *)
Definition btn_key (i : nat) (art : Article.t) : string :=
  Article.url art +:+ "_" +:+ pretty i.

Definition button_keys (new_articles : list Article.t) : list string :=
  imap btn_key new_articles.

(** [for i, art in enumerate(...)], from index [i] on: [clicked] is the
    key of the button whose click started this run of the script, if a
    button of this list did; the result is
    [st.session_state["selected_article"]], if set. *)
Fixpoint new_article_buttons (i : nat) (new_articles : list Article.t)
    (clicked : option string) (selected_article : option string)
  : option string :=
  match new_articles with
  | [] => selected_article
  | art :: rest =>
      let selected_article :=
        if bool_decide (clicked = Some (btn_key i art))
        then Some (Article.url art)
        else selected_article in
      new_article_buttons (S i) rest clicked selected_article
  end.

(** *** The script across clicks

    The two lists the script keeps in files, and the clicks that change
    them; each check runs against the pages as they are at that time. *)

Record app : Type := {
  app_urls : list string;
  app_state : gmap string (list string)
}.

Inductive action : Type :=
| Add_URL (new_url : string)
| Check_now (web : Playwright).

Definition click (list_of_set : gset string → list string) (s : app)
    (a : action) : app :=
  match a with
  | Add_URL new_url =>
      {| app_urls := urls_after (add_url new_url (app_urls s));
         app_state := app_state s |}
  | Check_now web =>
      match (@check_now web list_of_set (app_urls s) (app_state s)).1 with
      | Return r => {| app_urls := app_urls s; app_state := saved_state r |}
      | Raise _ => s
      end
  end.

(** ** Predicates of the further statements *)

Section MorePredicates.
Context `{PW : Playwright}.

(** What one turn of the handler's loop writes on the page. *)
Definition source_log (url : string) : list ui_event :=
  St_write ("🔍 " +:+ url) :: (fetch_links url).2.

Definition loop_log (urls : list string) : list ui_event :=
  concat (source_log <$> urls).

End MorePredicates.

(** A list the handler can have written: some urls, each once, at most 10. *)
Definition written_entry (entry : list string) : Prop :=
  entry ≠ [] ∧ NoDup entry ∧ length entry ≤ 10.

Fixpoint no_underscore (s : string) : Prop :=
  match s with
  | EmptyString => True
  | String c rest => c ≠ "_"%char ∧ no_underscore rest
  end.

(** A browser like the one of [Demo] whose [browser.close()] raises. *)
Module DemoClose.

Definition playwright : Playwright := {|
  browser := unit;
  context := unit;
  page := string;
  sync_playwright_enter := Return ();
  sync_playwright_exit := Return ();
  chromium_launch := Return ();
  new_context := λ _ _, Return ();
  new_page := λ _, Return "about:blank";
  goto := Demo.load;
  wait_for_selector := λ pg _ _, Raise "Timeout 5000ms exceeded";
  evaluate := λ pg _, Raise "Execution context was destroyed";
  wait_for_timeout := λ pg _, Return pg;
  query_selector_all := Demo.query;
  js_trim := Demo.trim;
  content := λ pg, Return ("<html>" +:+ pg +:+ "</html>");
  browser_close := λ _, Raise "Target closed";
  urlparse_netloc := λ url, Return (Demo.netloc url);
  print_stdout := λ _ _, Return ()
|}.

End DemoClose.

(** A browser like the one of [Demo] in a process whose standard output
    is closed. *)
Module DemoPrint.

Definition playwright : Playwright := {|
  browser := unit;
  context := unit;
  page := string;
  sync_playwright_enter := Return ();
  sync_playwright_exit := Return ();
  chromium_launch := Return ();
  new_context := λ _ _, Return ();
  new_page := λ _, Return "about:blank";
  goto := Demo.load;
  wait_for_selector := λ pg _ _, Return pg;
  evaluate := λ pg _, Return pg;
  wait_for_timeout := λ pg _, Return pg;
  query_selector_all := Demo.query;
  js_trim := Demo.trim;
  content := λ pg, Return ("<html>" +:+ pg +:+ "</html>");
  browser_close := λ _, Return ();
  urlparse_netloc := λ url, Return (Demo.netloc url);
  print_stdout := λ _ _, Raise "[Errno 9] Bad file descriptor"
|}.

End DemoPrint.

(** The lists of a well-kept installation: no url twice and none empty
    among the monitored urls, and the state only has entries for
    monitored urls, each a list a check can have written. *)
Definition app_ok (s : app) : Prop :=
  NoDup (app_urls s) ∧
  ("" ∉ app_urls s) ∧
  (∀ k entry,
      app_state s !! k = Some entry → k ∈ app_urls s ∧ written_entry entry).

(** The JSON texts of the two truth values. *)
Module DemoJson.

Definition codec : Json bool := {|
  json_dump := λ b : bool, if b then "true" else "false";
  json_load := λ text,
    if bool_decide (text = "true") then Return true
    else if bool_decide (text = "false") then Return false
    else Raise "Expecting value: line 1 column 1 (char 0)"
|}.

(** Paths relative to the working directory, with or without ["./"]. *)
Definition names : FileNames := {|
  file_of := λ path,
    match path with
    | String "."%char (String "/"%char rest) => rest
    | _ => path
    end
|}.

End DemoJson.

(** * Properties *)

Ltac run :=
  repeat (unfold mbind, outcome_bind, mret, outcome_ret, ui_bind, ui_ret,
                 try_except, ui_try_except, try_pass, lift, emit; simpl).

(** ** Link extraction *)

Section ScrapingFacts.
Context `{PW : Playwright}.

Lemma try_selector_no_links pg sel :
  no_links pg sel → try_selector pg sel = Return None.
Proof.
  unfold no_links, try_selector, eval_on_selector_all.
  destruct (query_selector_all pg sel) as [nodes|e]; run; [|done].
  intros ->. by rewrite bool_decide_eq_false_2 by (intros ?; done).
Qed.

Lemma try_selector_links pg sel nodes :
  query_selector_all pg sel = Return nodes →
  js_callback nodes ≠ [] →
  try_selector pg sel = Return (Some (js_callback nodes)).
Proof.
  intros Hq Hne. unfold try_selector, eval_on_selector_all.
  rewrite Hq. run. by rewrite bool_decide_eq_true_2.
Qed.

Lemma selector_loop_returns pg selectors :
  ∃ articles asked, selector_loop pg selectors = Return (articles, asked).
Proof.
  induction selectors as [|sel rest (articles & asked & IH)]; simpl.
  - by exists [], [].
  - unfold try_selector, eval_on_selector_all.
    destruct (query_selector_all pg sel) as [nodes|e]; run.
    + case_bool_decide; run.
      * by eexists _, _.
      * rewrite IH. by eexists _, _.
    + rewrite IH. by eexists _, _.
Qed.

Lemma selector_loop_skip pg pre rest articles asked :
  Forall (no_links pg) pre →
  selector_loop pg rest = Return (articles, asked) →
  selector_loop pg (pre ++ rest) = Return (articles, pre ++ asked).
Proof.
  intros Hpre Hrest.
  induction Hpre as [|sel pre Hsel _ IH]; simpl; [done|].
  rewrite (try_selector_no_links _ _ Hsel). run. by rewrite IH.
Qed.

Lemma selector_loop_win pg sel post nodes :
  query_selector_all pg sel = Return nodes →
  js_callback nodes ≠ [] →
  selector_loop pg (sel :: post) = Return (js_callback nodes, [sel]).
Proof.
  intros Hq Hne. simpl. by rewrite (try_selector_links _ _ _ Hq Hne).
Qed.

Lemma selector_loop_first pg pre sel post nodes :
  Forall (no_links pg) pre →
  query_selector_all pg sel = Return nodes →
  js_callback nodes ≠ [] →
  selector_loop pg (pre ++ sel :: post)
  = Return (js_callback nodes, pre ++ [sel]).
Proof.
  intros Hpre Hq Hne. apply selector_loop_skip; [done|].
  by apply selector_loop_win.
Qed.

Lemma selector_loop_none pg selectors :
  Forall (no_links pg) selectors →
  selector_loop pg selectors = Return ([], selectors).
Proof.
  intros Hall. rewrite <-(app_nil_r selectors) at 1.
  rewrite (selector_loop_skip pg selectors [] [] []); [|done..].
  by rewrite app_nil_r.
Qed.

Lemma fetch_links_try_ok url br pg domain articles asked :
  session_ok url br pg domain →
  selector_loop pg (selectors_for domain) = Return (articles, asked) →
  fetch_links_try url = Return (take 10 articles).
Proof.
  intros (Henter & Hopen & Hdom & Hclose & Hprint & Hexit) Hloop.
  unfold fetch_links_try, with_sync_playwright.
  rewrite Henter, Hopen. run. rewrite Hdom. run. rewrite Hloop. run.
  rewrite Hclose. run. rewrite (Hprint _ _ Hloop). run. by rewrite Hexit.
Qed.

Lemma fetch_links_ok url br pg domain articles asked :
  session_ok url br pg domain →
  selector_loop pg (selectors_for domain) = Return (articles, asked) →
  fetch_links url = (Return (take 10 articles), []).
Proof.
  intros Hok Hloop. unfold fetch_links.
  by rewrite (fetch_links_try_ok _ _ _ _ _ _ Hok Hloop).
Qed.

Lemma fetch_links_failed url e :
  fetch_links_try url = Raise e →
  fetch_links url
  = (Return [], [St_error ("Error scraping " +:+ url +:+ ": " +:+ e)]).
Proof. intros Hfail. unfold fetch_links. by rewrite Hfail. Qed.

Lemma fetch_links_returns url :
  ∃ lg, fetch_links url = (Return (fetched url), lg).
Proof.
  unfold fetched, fetch_links.
  destruct (fetch_links_try url) as [articles|e]; run; by eexists.
Qed.

Lemma fetch_links_try_length url articles :
  fetch_links_try url = Return articles → length articles ≤ 10.
Proof.
  unfold fetch_links_try, with_sync_playwright.
  destruct sync_playwright_enter as [[]|?]; run; [|done].
  destruct (open_page url) as [[br pg]|?]; run;
    [|by destruct sync_playwright_exit].
  destruct (urlparse_netloc url) as [domain|?]; run;
    [|by destruct sync_playwright_exit].
  destruct (selector_loop pg (selectors_for domain)) as [[found asked]|?];
    run; [|by destruct sync_playwright_exit].
  destruct (browser_close br) as [[]|?]; run;
    [|by destruct sync_playwright_exit].
  destruct (print_stdout _ (take 10 found)) as [[]|?]; run;
    [|by destruct sync_playwright_exit].
  destruct sync_playwright_exit; [|done].
  intros [= <-]. rewrite length_take. lia.
Qed.

Lemma fetched_length url : length (fetched url) ≤ 10.
Proof.
  unfold fetched, fetch_links.
  destruct (fetch_links_try url) as [articles|e] eqn:Htry; run; [|lia].
  by eapply fetch_links_try_length.
Qed.

End ScrapingFacts.

Section ScrapingClaims.
Context `{PW : Playwright}.

(** C4: the list [fetch_links] returns never has more than 10 entries,
    however many elements the winning rule matched; when a rule wins and
    every other step of the session succeeds (the [print] of the list
    among them), the list is the first 10 of that rule's surviving
    matches, which the callback keeps in document order. *)
Theorem fetch_links_at_most_10 url :
  (∃ articles lg,
      fetch_links url = (Return articles, lg) ∧ length articles ≤ 10) ∧
  (∀ br pg domain pre sel post nodes,
      session_ok url br pg domain →
      selectors_for domain = pre ++ sel :: post →
      Forall (no_links pg) pre →
      query_selector_all pg sel = Return nodes →
      js_callback nodes ≠ [] →
      fetch_links url = (Return (take 10 (js_callback nodes)), []) ∧
      js_callback nodes `sublist_of`
        ((λ a, Article.mk (js_trim (Node.innerText a)) (Node.href a))
           <$> nodes)).
Proof.
  split.
  - destruct (fetch_links_returns url) as [lg Hret].
    exists (fetched url), lg. split; [done|]. apply fetched_length.
  - intros br pg domain pre sel post nodes Hok Hsels Hpre Hq Hne. split.
    + eapply fetch_links_ok; [done|]. rewrite Hsels.
      by apply selector_loop_first.
    + apply sublist_filter.
Qed.


(** C9: a rule whose query raises counts as a rule without matches: the
    loop returns what the remaining rules give, exactly as it does after
    a rule that matched nothing, it never raises, and [fetch_links]
    returns the first 10 of that result and reports no error when every
    other step of the session succeeds (the [print] of the list among
    them). *)
Theorem failing_rule_is_skipped pg sel rest e :
  query_selector_all pg sel = Raise e →
  ∃ articles asked,
    selector_loop pg rest = Return (articles, asked) ∧
    selector_loop pg (sel :: rest) = Return (articles, sel :: asked) ∧
    (∀ sel0,
        query_selector_all pg sel0 = Return [] →
        selector_loop pg (sel0 :: rest) = Return (articles, sel0 :: asked)) ∧
    (∀ url br domain pre,
        session_ok url br pg domain →
        selectors_for domain = pre ++ sel :: rest →
        Forall (no_links pg) pre →
        fetch_links url = (Return (take 10 articles), [])).
Proof.
  intros Hq.
  destruct (selector_loop_returns pg rest) as (articles & asked & Hrest).
  assert (Hskip : ∀ s, no_links pg s →
            selector_loop pg (s :: rest) = Return (articles, s :: asked)).
  { intros s Hs.
    apply (selector_loop_skip pg [s] rest articles asked); [|done].
    by constructor. }
  assert (Hsel : no_links pg sel) by (unfold no_links; by rewrite Hq).
  exists articles, asked. split; [done|]. split; [by apply Hskip|]. split.
  - intros sel0 Hq0. apply Hskip. unfold no_links. by rewrite Hq0.
  - intros url br domain pre Hok Hsels Hpre.
    eapply fetch_links_ok; [done|]. rewrite Hsels.
    apply selector_loop_skip; [done|]. by apply Hskip.
Qed.

(** C6, as the code has it: a failed fetch is reported on the page with
    [st.error] and [fetch_links] returns the empty list, the value it
    also returns, without a report, when every step of the session
    succeeded (the [print] of the list among them) and no rule found a
    link. *)
Theorem fetch_failure_returns_empty_list url :
  (∀ e,
      fetch_links_try url = Raise e →
      fetch_links url
      = (Return [],
         [St_error ("Error scraping " +:+ url +:+ ": " +:+ e)])) ∧
  (∀ br ctx pg e,
      sync_playwright_enter = Return () →
      create_context url = Return (br, ctx) →
      new_page ctx = Return pg →
      goto pg url = Raise e →
      sync_playwright_exit = Return () →
      fetch_links url
      = (Return [],
         [St_error ("Error scraping " +:+ url +:+ ": " +:+ e)])) ∧
  (∀ br pg domain,
      session_ok url br pg domain →
      Forall (no_links pg) (selectors_for domain) →
      fetch_links url = (Return [], [])).
Proof.
  split; [|split].
  - apply fetch_links_failed.
  - intros br ctx pg e Henter Hctx Hpage Hgoto Hexit.
    apply fetch_links_failed.
    unfold fetch_links_try, with_sync_playwright, open_page.
    rewrite Henter, Hctx. run. rewrite Hpage. run. rewrite Hgoto. run.
    by rewrite Hexit.
  - intros br pg domain Hok Hnone.
    by apply (fetch_links_ok url br pg domain [] (selectors_for domain) Hok),
       selector_loop_none.
Qed.

End ScrapingClaims.

(** ** Article content *)

Section ContentClaims.
Context `{PW : Playwright} `{RD : Readability}.

Lemma try_except_returns (body : outcome string) (page_for : string → string) :
  ∃ html, try_except body (λ e, Return (page_for e)) = Return html.
Proof. destruct body as [html|e]; by eexists. Qed.

(** C8: both content functions, and the viewer's choice between them,
    return a string for every url and mode; whenever the body of the
    [try] raises (the navigation fails, the parser fails, or any other
    step does) the string returned is the paragraph that carries the
    text of the exception. *)
Theorem content_always_renders mode url :
  (∃ html, fetch_article_html url = Return html) ∧
  (∃ html, fetch_article_reader_mode url = Return html) ∧
  (∃ html, view_article mode url = Return html) ∧
  (∀ e,
      view_article_try mode url = Raise e →
      view_article mode url
      = Return ("<p>Error loading article: " +:+ e +:+ "</p>")) ∧
  (∀ br ctx pg e,
      sync_playwright_enter = Return () →
      create_context url = Return (br, ctx) →
      new_page ctx = Return pg →
      goto pg url = Raise e →
      sync_playwright_exit = Return () →
      view_article mode url
      = Return ("<p>Error loading article: " +:+ e +:+ "</p>")) ∧
  (∀ html doc e,
      with_sync_playwright (
        '(br, ctx) ← create_context url;
        pg ← new_page ctx;
        pg ← goto pg url;
        html ← content pg;
        _ ← browser_close br;
        Return html) = Return html →
      Document html = Return doc →
      summary doc = Raise e →
      fetch_article_reader_mode url
      = Return ("<p>Error loading article: " +:+ e +:+ "</p>")).
Proof.
  split; [apply try_except_returns|].
  split; [apply try_except_returns|].
  split; [unfold view_article; case_bool_decide; apply try_except_returns|].
  split; [|split].
  - unfold view_article_try, view_article,
      fetch_article_html, fetch_article_reader_mode.
    intros e Hfail. case_bool_decide; by rewrite Hfail.
  - intros br ctx pg e Henter Hctx Hpage Hgoto Hexit.
    unfold view_article. case_bool_decide.
    + unfold fetch_article_html, fetch_article_html_try.
      unfold with_sync_playwright. run.
      rewrite Henter, Hctx. run. rewrite Hpage. run. rewrite Hgoto. run.
      by rewrite Hexit.
    + unfold fetch_article_reader_mode, fetch_article_reader_mode_try.
      unfold with_sync_playwright. run.
      rewrite Henter, Hctx. run. rewrite Hpage. run. rewrite Hgoto. run.
      by rewrite Hexit.
  - intros html doc e Hload Hdoc Hsum.
    unfold fetch_article_reader_mode, fetch_article_reader_mode_try.
    rewrite Hload. run. rewrite Hdoc. run. by rewrite Hsum.
Qed.

End ContentClaims.

(** ** Change detection *)

Lemma ui_bind_return {A B} (m : ui A) (f : A → ui B) a lg b lg' :
  m = (Return a, lg) →
  f a = (Return b, lg') →
  m ≫= f = (Return b, lg ++ lg').
Proof. intros -> Hf. run. by rewrite Hf. Qed.

Lemma filter_none {A} (P : A → Prop) `{!∀ x, Decision (P x)} (l : list A) :
  (∀ x, x ∈ l → ¬ P x) → filter P l = [].
Proof.
  induction l as [|x l IH]; intros Hno; [done|].
  rewrite filter_cons_False by (apply Hno; left).
  apply IH. intros y Hy. apply Hno. by right.
Qed.

Section CheckFacts.
Context `{PW : Playwright}.
Variable list_of_set : gset string → list string.
Hypothesis list_of_set_perm : ∀ X, list_of_set X ≡ₚ elements X.

Local Abbreviation check_body := (check_body list_of_set).
Local Abbreviation check_loop := (check_loop list_of_set).
Local Abbreviation check_now := (check_now list_of_set).
Local Abbreviation run_loop := (run_loop list_of_set).

Lemma set_of_list_of_set (X : gset string) : list_to_set (list_of_set X) = X.
Proof. rewrite list_of_set_perm. apply list_to_set_elements_L. Qed.

Lemma check_body_nil url v : check_body url [] v = v.
Proof. done. Qed.

Lemma check_body_first url articles v :
  state v !! url = None →
  articles ≠ [] →
  check_body url articles v
  = {| state :=
         <[url := list_of_set (list_to_set (Article.url <$> articles))]>
           (state v);
       new_articles_global := new_articles_global v ++ articles |}.
Proof.
  intros Hnone Hne. unfold check_body.
  rewrite bool_decide_eq_false_2 by done. by rewrite Hnone.
Qed.

Lemma check_body_seen url articles v stored :
  state v !! url = Some stored →
  articles ≠ [] →
  check_body url articles v
  = {| state :=
         <[url := list_of_set (list_to_set (Article.url <$> articles))]>
           (state v);
       new_articles_global :=
         new_articles_global v ++
         filter (λ a, Article.url a ∈
                   (list_to_set (Article.url <$> articles) : gset string)
                   ∖ list_to_set stored)
                articles |}.
Proof.
  intros Hsome Hne. unfold check_body.
  rewrite bool_decide_eq_false_2 by done. by rewrite Hsome.
Qed.

Lemma check_body_state_eq url articles v :
  articles ≠ [] →
  state (check_body url articles v) !! url
  = Some (list_of_set (list_to_set (Article.url <$> articles))).
Proof.
  intros Hne. destruct (state v !! url) as [stored|] eqn:Hst.
  - rewrite (check_body_seen _ _ _ _ Hst Hne). simpl.
    apply lookup_insert_eq.
  - rewrite (check_body_first _ _ _ Hst Hne). simpl.
    apply lookup_insert_eq.
Qed.

Lemma check_body_state_ne url articles v k :
  k ≠ url →
  state (check_body url articles v) !! k = state v !! k.
Proof.
  intros Hk. unfold check_body. case_bool_decide; [done|].
  destruct (state v !! url); simpl; by rewrite lookup_insert_ne.
Qed.

Lemma check_body_again url articles v :
  articles ≠ [] →
  state v !! url
  = Some (list_of_set (list_to_set (Article.url <$> articles))) →
  check_body url articles v = v.
Proof.
  intros Hne Hst. rewrite (check_body_seen _ _ _ _ Hst Hne).
  rewrite set_of_list_of_set, insert_id by done.
  rewrite filter_none, app_nil_r; [by destruct v|].
  intros a _ [Hin Hout]%elem_of_difference. done.
Qed.

Lemma run_loop_cons url urls v :
  run_loop (url :: urls) v = run_loop urls (check_body url (fetched url) v).
Proof. done. Qed.

Lemma run_loop_snoc urls url v :
  run_loop (urls ++ [url]) v = check_body url (fetched url) (run_loop urls v).
Proof. unfold run_loop. by rewrite foldl_app. Qed.

Lemma check_loop_cons url rest v :
  check_loop (url :: rest) v
  = (_ ← emit (St_write ("🔍 " +:+ url));
     articles ← fetch_links url;
     check_loop rest (check_body url articles v)).
Proof. done. Qed.

Lemma check_loop_run urls v :
  ∃ lg, check_loop urls v = (Return (run_loop urls v), lg).
Proof.
  revert v. induction urls as [|url rest IH]; intros v.
  - by eexists.
  - rewrite check_loop_cons, run_loop_cons.
    destruct (fetch_links_returns url) as [lg1 Hfetch].
    destruct (IH (check_body url (fetched url) v)) as [lg2 Hrest].
    eexists. eapply ui_bind_return; [done|].
    eapply ui_bind_return; [exact Hfetch|exact Hrest].
Qed.

Lemma check_now_run urls st :
  let v := run_loop urls {| state := st; new_articles_global := [] |} in
  ∃ lg,
    check_now urls st
    = (Return {| saved_state := state v;
                 session_new_articles := new_articles_global v |}, lg).
Proof.
  intros v. unfold check_now.
  destruct (check_loop_run urls {| state := st; new_articles_global := [] |})
    as [lg Hloop].
  eexists. eapply ui_bind_return; [done|].
  eapply ui_bind_return; [exact Hloop|].
  eapply ui_bind_return; [done|].
  eapply ui_bind_return; done.
Qed.

Lemma fetched_of url articles lg :
  fetch_links url = (Return articles, lg) → fetched url = articles.
Proof. unfold fetched. by intros ->. Qed.

Lemma run_loop_frame urls v k :
  k ∉ urls ∨ fetched k = [] →
  state (run_loop urls v) !! k = state v !! k.
Proof.
  revert v. induction urls as [|url rest IH]; intros v Hk; [done|].
  rewrite run_loop_cons, IH.
  - destruct (decide (k = url)) as [->|Hne].
    + destruct Hk as [Hk|Hk]; [by destruct Hk; left|].
      by rewrite Hk, check_body_nil.
    + by apply check_body_state_ne.
  - destruct Hk as [Hk|Hk]; [left|by right].
    intros Hin. apply Hk. by right.
Qed.

Lemma run_loop_stored urls v url :
  url ∈ urls →
  fetched url ≠ [] →
  state (run_loop urls v) !! url
  = Some (list_of_set (list_to_set (Article.url <$> fetched url))).
Proof.
  induction urls as [|last urls IH] using rev_ind; intros Hin Hne.
  - by apply elem_of_nil in Hin.
  - rewrite run_loop_snoc. destruct (decide (url = last)) as [<-|Hother].
    + by apply check_body_state_eq.
    + rewrite check_body_state_ne by done. apply IH; [|done].
      apply elem_of_app in Hin as [Hin|Hin]; [done|].
      by apply list_elem_of_singleton in Hin.
Qed.

Lemma run_loop_fixed urls v :
  (∀ url, url ∈ urls → fetched url ≠ [] →
     state v !! url
     = Some (list_of_set (list_to_set (Article.url <$> fetched url)))) →
  run_loop urls v = v.
Proof.
  induction urls as [|url rest IH]; intros Hst; [done|].
  rewrite run_loop_cons.
  assert (Hstep : check_body url (fetched url) v = v).
  { destruct (decide (fetched url = [])) as [->|Hne]; [done|].
    apply check_body_again; [done|]. apply Hst; [left|done]. }
  rewrite Hstep. apply IH. intros u Hu. apply Hst. by right.
Qed.

End CheckFacts.

Section CheckClaims.
Context `{PW : Playwright}.
Variable list_of_set : gset string → list string.
Hypothesis list_of_set_perm : ∀ X, list_of_set X ≡ₚ elements X.

Local Abbreviation check_body := (check_body list_of_set).
Local Abbreviation check_now := (check_now list_of_set).

(** C1: for a source with a stored snapshot [S] and a non-empty fresh list
    with url set [C], the loop body appends to the reported articles the
    fresh articles whose url is in [C ∖ S], in the order of the fresh list;
    their urls are exactly [C ∖ S]; and the entry of the source becomes a
    list of the set [C], whatever [S] was.  A run of the handler over that
    one source reports that list and saves that state. *)
Theorem check_reports_difference url articles v stored :
  state v !! url = Some stored →
  articles ≠ [] →
  let S : gset string := list_to_set stored in
  let C : gset string := list_to_set (Article.url <$> articles) in
  let reported := filter (λ a, Article.url a ∈ C ∖ S) articles in
  let v' := check_body url articles v in
  new_articles_global v' = new_articles_global v ++ reported ∧
  list_to_set (Article.url <$> reported) = C ∖ S ∧
  state v' = <[url := list_of_set C]> (state v) ∧
  snapshot (state v') url = Some C ∧
  (∀ lg,
      fetch_links url = (Return articles, lg) →
      ∃ lg',
        check_now [url] (state v)
        = (Return {| saved_state := <[url := list_of_set C]> (state v);
                     session_new_articles := reported |}, lg')).
Proof.
  intros Hst Hne S C reported v'. subst v'.
  rewrite (check_body_seen _ _ _ _ _ Hst Hne). simpl.
  split; [done|]. split; [|split; [done|split]].
  - apply set_eq. intros u. rewrite elem_of_list_to_set, list_elem_of_fmap.
    split.
    + intros (a & -> & Ha). by apply list_elem_of_filter in Ha as [Ha _].
    + intros Hu. pose proof Hu as [HuC _]%elem_of_difference.
      apply elem_of_list_to_set, list_elem_of_fmap in HuC as (a & -> & Ha).
      exists a. split; [done|]. by apply list_elem_of_filter.
  - unfold snapshot. rewrite lookup_insert_eq. simpl.
    by rewrite set_of_list_of_set.
  - intros lg Hfetch.
    destruct (check_now_run list_of_set [url] (state v)) as [lg' Hrun].
    exists lg'. rewrite Hrun. unfold run_loop. simpl.
    rewrite (fetched_of _ _ _ Hfetch).
    by rewrite (check_body_seen list_of_set url articles
                  {| state := state v; new_articles_global := [] |}
                  stored Hst Hne).
Qed.

(** C2: for a source without a stored snapshot and a non-empty fresh list,
    the loop body appends every fresh article to the reported articles and
    creates the entry of the source as a list of the set of the fresh
    urls; a run of the handler over that one source reports the whole
    fresh list. *)
Theorem first_check_reports_all url articles v :
  state v !! url = None →
  articles ≠ [] →
  let C : gset string := list_to_set (Article.url <$> articles) in
  let v' := check_body url articles v in
  new_articles_global v' = new_articles_global v ++ articles ∧
  state v' = <[url := list_of_set C]> (state v) ∧
  snapshot (state v') url = Some C ∧
  (∀ lg,
      fetch_links url = (Return articles, lg) →
      ∃ lg',
        check_now [url] (state v)
        = (Return {| saved_state := <[url := list_of_set C]> (state v);
                     session_new_articles := articles |}, lg')).
Proof.
  intros Hst Hne C v'. subst v'.
  rewrite (check_body_first _ _ _ _ Hst Hne). simpl.
  split; [done|]. split; [done|]. split.
  - unfold snapshot. rewrite lookup_insert_eq. simpl.
    by rewrite set_of_list_of_set.
  - intros lg Hfetch.
    destruct (check_now_run list_of_set [url] (state v)) as [lg' Hrun].
    exists lg'. rewrite Hrun. unfold run_loop. simpl.
    rewrite (fetched_of _ _ _ Hfetch).
    by rewrite (check_body_first list_of_set url articles
                  {| state := state v; new_articles_global := [] |}
                  Hst Hne).
Qed.

(** C3: on an empty fresh list the loop body changes nothing, neither the
    reported articles nor any entry of the state; a run of the handler over
    a source whose [fetch_links] gave the empty list reports nothing and
    saves the state it started from. *)
Theorem empty_extraction_is_skipped url v :
  check_body url [] v = v ∧
  (∀ st lg,
      fetch_links url = (Return [], lg) →
      ∃ lg',
        check_now [url] st
        = (Return {| saved_state := st; session_new_articles := [] |}, lg')).
Proof.
  split; [done|]. intros st lg Hfetch.
  destruct (check_now_run list_of_set [url] st) as [lg' Hrun].
  exists lg'. rewrite Hrun. unfold run_loop. simpl.
  by rewrite (fetched_of _ _ _ Hfetch).
Qed.

(** C7: the loop body run twice on the same non-empty fresh list reports
    nothing the second time and leaves the state of the first run; and two
    runs of the handler in a row against the same pages report no article
    in the second run and save the same state. *)
Theorem second_check_reports_nothing url articles v :
  articles ≠ [] →
  let v1 := check_body url articles v in
  let v2 := check_body url articles v1 in
  new_articles_global v2 = new_articles_global v1 ∧
  state v2 = state v1 ∧
  (∀ urls st,
      ∃ r1 lg1 r2 lg2,
        check_now urls st = (Return r1, lg1) ∧
        check_now urls (saved_state r1) = (Return r2, lg2) ∧
        session_new_articles r2 = [] ∧
        saved_state r2 = saved_state r1).
Proof.
  intros Hne v1 v2.
  assert (Hagain : v2 = v1).
  { subst v2. apply check_body_again; [done..|]. subst v1.
    by apply check_body_state_eq. }
  rewrite Hagain. split; [done|]. split; [done|]. intros urls st.
  destruct (check_now_run list_of_set urls st) as [lg1 Hrun1].
  set (w := run_loop list_of_set urls {| state := st; new_articles_global := [] |}) in *.
  destruct (check_now_run list_of_set urls (state w)) as [lg2 Hrun2].
  eexists _, lg1, _, lg2. split; [exact Hrun1|]. split; [exact Hrun2|].
  simpl. rewrite (run_loop_fixed list_of_set list_of_set_perm); [done|].
  intros u Hu Hfresh. simpl. subst w. by apply run_loop_stored.
Qed.

(** C10: a run of the handler leaves the entry of [k] as it was, present
    or absent, whenever [k] is not in the monitored list or [fetch_links]
    returned the empty list for it. *)
Theorem check_now_frame urls st k :
  k ∉ urls ∨ (fetch_links k).1 = Return [] →
  ∃ r lg,
    check_now urls st = (Return r, lg) ∧
    saved_state r !! k = st !! k.
Proof.
  intros Hk.
  destruct (check_now_run list_of_set urls st) as [lg Hrun].
  eexists _, lg. split; [exact Hrun|]. simpl.
  rewrite run_loop_frame; [done|].
  destruct Hk as [Hk|Hk]; [by left|right].
  unfold fetched. by rewrite Hk.
Qed.

End CheckClaims.

(** ** The statements on the small instance *)

(** Twelve matches of the winning rule, ten returned. *)
Lemma fetch_links_at_most_10_witness :
  length (js_callback Demo.twelve) = 12 ∧
  fetch_links Demo.huffpost = (Return (take 10 (js_callback Demo.twelve)), []) ∧
  length (take 10 (js_callback Demo.twelve)) = 10.
Proof.
  split; [reflexivity|]. split; [|reflexivity].
  destruct (fetch_links_at_most_10 (PW:=Demo.playwright) Demo.huffpost) as [_ Hwin].
  destruct (Hwin tt Demo.huffpost "www.huffpost.com"
              ["a[href*='/entry/']"] "a[href*='/weird-news/']"
              GENERIC_SELECTORS Demo.twelve) as [Hres _].
  - repeat split; reflexivity.
  - reflexivity.
  - repeat constructor.
  - reflexivity.
  - discriminate.
  - exact Hres.
Defined.


(** The first generic rule raises on this page; the sixth one matches. *)
Lemma failing_rule_is_skipped_witness :
  @query_selector_all Demo.playwright Demo.example_news "a[href*='/article']"
  = Raise "Unexpected token while parsing selector" ∧
  selector_loop Demo.example_news GENERIC_SELECTORS
  = Return ([Demo.A1; Demo.B2],
            ["a[href*='/article']"; "a[href*='/story/']"; "a[href*='/weird']";
             "a[href*='/Odd_News']"; "a[href*='/offbeat']"; "h3 a"]).
Proof.
  split; [reflexivity|].
  destruct (failing_rule_is_skipped (PW:=Demo.playwright) Demo.example_news "a[href*='/article']"
              (tail GENERIC_SELECTORS)
              "Unexpected token while parsing selector" eq_refl)
    as (articles & asked & Hrest & Hall & _).
  vm_compute in Hrest. injection Hrest as <- <-. exact Hall.
Defined.

(** A page that cannot be loaded and a page without links. *)
Lemma fetch_failure_returns_empty_list_witness :
  fetch_links "https://down.example/"
  = (Return [],
     [St_error
        "Error scraping https://down.example/: net::ERR_NAME_NOT_RESOLVED"]) ∧
  fetch_links "https://blank.example/" = (Return [], []).
Proof.
  split.
  - destruct (fetch_failure_returns_empty_list (PW:=Demo.playwright) "https://down.example/")
      as (Hfail & _ & _).
    exact (Hfail "net::ERR_NAME_NOT_RESOLVED" eq_refl).
  - destruct (fetch_failure_returns_empty_list (PW:=Demo.playwright) "https://blank.example/")
      as (_ & _ & Hnone).
    apply (Hnone tt "https://blank.example/" "blank.example").
    + repeat split; reflexivity.
    + repeat constructor.
Defined.

(** C6 as stated fails: the fetch of the first page raises, the second
    page loads and no rule finds a link on it, and [fetch_links] returns
    the same value for both. *)
Lemma fetch_failure_not_distinguished :
  fetch_links_try "https://down.example/" = Raise "net::ERR_NAME_NOT_RESOLVED" ∧
  session_ok "https://blank.example/" tt "https://blank.example/"
    "blank.example" ∧
  Forall (no_links "https://blank.example/") (selectors_for "blank.example") ∧
  (fetch_links "https://down.example/").1 = Return [] ∧
  (fetch_links "https://down.example/").1
  = (fetch_links "https://blank.example/").1.
Proof.
  split; [reflexivity|]. split; [repeat split; reflexivity|].
  split; [repeat constructor|]. split; reflexivity.
Qed.

(** Navigation fails in both modes; the parser fails in reader mode. *)
Lemma content_always_renders_witness :
  view_article "HTML" "https://down.example/"
  = Return "<p>Error loading article: net::ERR_NAME_NOT_RESOLVED</p>" ∧
  view_article "Reader Mode" "https://down.example/"
  = Return "<p>Error loading article: net::ERR_NAME_NOT_RESOLVED</p>" ∧
  fetch_article_reader_mode "https://up.example/down"
  = Return "<p>Error loading article: Unparseable</p>".
Proof.
  split; [|split].
  - destruct (content_always_renders (PW:=Demo.playwright) "HTML" "https://down.example/")
      as (_ & _ & _ & Hfail & _).
    exact (Hfail "net::ERR_NAME_NOT_RESOLVED" eq_refl).
  - destruct (content_always_renders (PW:=Demo.playwright) "Reader Mode" "https://down.example/")
      as (_ & _ & _ & _ & Hnav & _).
    exact (Hnav tt tt "about:blank" "net::ERR_NAME_NOT_RESOLVED"
             eq_refl eq_refl eq_refl eq_refl eq_refl).
  - destruct (content_always_renders (PW:=Demo.playwright) "HTML" "https://up.example/down")
      as (_ & _ & _ & _ & _ & Hparse).
    exact (Hparse "<html>https://up.example/down</html>"
             "<html>https://up.example/down</html>" "Unparseable"
             eq_refl eq_refl eq_refl).
Defined.

(** The second check of the design document's example: [u1] is known,
    [u3] is new, [u2] is dropped from the snapshot. *)
Lemma check_reports_difference_witness :
  let v' := check_body elements "example.com" [Demo.A1; Demo.C3] Demo.seen_u1_u2 in
  new_articles_global v' = [Demo.C3] ∧
  snapshot (state v') "example.com" = Some {[ "u1"; "u3" ]}.
Proof.
  destruct (check_reports_difference (PW:=Demo.playwright) elements (λ X, reflexivity _)
              "example.com" [Demo.A1; Demo.C3] Demo.seen_u1_u2 ["u1"; "u2"])
    as (Hnew & _ & _ & Hsnap & _).
  - reflexivity.
  - discriminate.
  - split.
    + rewrite Hnew. vm_compute. reflexivity.
    + rewrite Hsnap. vm_compute. reflexivity.
Defined.

(** The first check of the design document's example. *)
Lemma first_check_reports_all_witness :
  let v' :=
    check_body elements "example.com" [Demo.A1; Demo.B2]
      {| state := ∅; new_articles_global := [] |} in
  new_articles_global v' = [Demo.A1; Demo.B2] ∧
  snapshot (state v') "example.com" = Some {[ "u1"; "u2" ]}.
Proof.
  destruct (first_check_reports_all (PW:=Demo.playwright) elements (λ X, reflexivity _)
              "example.com" [Demo.A1; Demo.B2]
              {| state := ∅; new_articles_global := [] |})
    as (Hnew & _ & Hsnap & _).
  - reflexivity.
  - discriminate.
  - split.
    + exact Hnew.
    + rewrite Hsnap. vm_compute. reflexivity.
Defined.

(** A run over a page that cannot be loaded keeps the stored snapshot. *)
Lemma empty_extraction_is_skipped_witness :
  ∃ lg,
    check_now elements ["https://down.example/"]
      {[ "https://down.example/" := ["u1"; "u2"] ]}
    = (Return {| saved_state := {[ "https://down.example/" := ["u1"; "u2"] ]};
                 session_new_articles := [] |}, lg).
Proof.
  destruct (empty_extraction_is_skipped (PW:=Demo.playwright) elements "https://down.example/"
              Demo.seen_u1_u2) as [_ Hrun].
  exact (Hrun {[ "https://down.example/" := ["u1"; "u2"] ]} _ eq_refl).
Defined.

(** The same fresh list twice. *)
Lemma second_check_reports_nothing_witness :
  let v1 := check_body elements "example.com" [Demo.A1; Demo.C3] Demo.seen_u1_u2 in
  let v2 := check_body elements "example.com" [Demo.A1; Demo.C3] v1 in
  new_articles_global v1 = [Demo.C3] ∧
  new_articles_global v2 = [Demo.C3] ∧
  state v2 = state v1.
Proof.
  destruct (second_check_reports_nothing (PW:=Demo.playwright) elements (λ X, reflexivity _)
              "example.com" [Demo.A1; Demo.C3] Demo.seen_u1_u2)
    as (Hnew & Hstate & _).
  - discriminate.
  - split; [vm_compute; reflexivity|]. split; [|exact Hstate].
    rewrite Hnew. vm_compute. reflexivity.
Defined.

(** A run over two sources, one without links, and an unlisted source. *)
Lemma check_now_frame_witness :
  (∃ r lg,
      check_now elements [Demo.example_news; "https://blank.example/"]
        {[ "https://blank.example/" := ["b1"]; "https://other.example/" := [] ]}
      = (Return r, lg) ∧
      saved_state r !! "https://blank.example/" = Some ["b1"]) ∧
  (∃ r lg,
      check_now elements [Demo.example_news; "https://blank.example/"]
        {[ "https://blank.example/" := ["b1"]; "https://other.example/" := [] ]}
      = (Return r, lg) ∧
      saved_state r !! "https://unknown.example/" = None).
Proof.
  split.
  - destruct (check_now_frame (PW:=Demo.playwright) elements
                [Demo.example_news; "https://blank.example/"]
                {[ "https://blank.example/" := ["b1"];
                   "https://other.example/" := [] ]}
                "https://blank.example/") as (r & lg & Hrun & Hsame).
    + right. reflexivity.
    + exists r, lg. split; [exact Hrun|]. rewrite Hsame.
      vm_compute. reflexivity.
  - destruct (check_now_frame (PW:=Demo.playwright) elements
                [Demo.example_news; "https://blank.example/"]
                {[ "https://blank.example/" := ["b1"];
                   "https://other.example/" := [] ]}
                "https://unknown.example/") as (r & lg & Hrun & Hsame).
    + left. intros Hin. repeat (apply elem_of_cons in Hin as [Hin|Hin];
        [discriminate|]). by apply elem_of_nil in Hin.
    + exists r, lg. split; [exact Hrun|]. rewrite Hsame.
      vm_compute. reflexivity.
Defined.


(** * Further properties of the code *)

(** ** Link extraction *)

Lemma append_cons (c : ascii) (s t : string) :
  String c s +:+ t = String c (s +:+ t).
Proof. reflexivity. Qed.

Lemma prefix_spec (s1 s2 : string) :
  String.prefix s1 s2 = true ↔ ∃ post, s2 = s1 +:+ post.
Proof.
  revert s2. induction s1 as [|a s1 IH]; intros s2.
  - split; [by exists s2|by destruct s2].
  - setoid_rewrite append_cons.
    destruct s2 as [|b s2]; simpl; [split; [done|by intros [post ?]]|].
    destruct (ascii_dec a b) as [->|Hne].
    + rewrite IH. split; intros [post Hpost]; exists post; congruence.
    + split; [done|]. intros [post Hpost]. congruence.
Qed.

Lemma str_in_spec (needle hay : string) :
  str_in needle hay = true ↔ ∃ pre post, hay = pre +:+ needle +:+ post.
Proof.
  induction hay as [|c hay IH].
  - change (str_in needle "") with (String.prefix needle "" || false).
    rewrite orb_false_r, prefix_spec. split.
    + intros [post Hpost]. by exists "", post.
    + intros (pre & post & Heq). destruct pre; [by exists post|done].
  - change (str_in needle (String c hay))
      with (String.prefix needle (String c hay) || str_in needle hay).
    rewrite orb_true_iff, prefix_spec, IH. split.
    + intros [[post Hpost]|(pre & post & ->)].
      * by exists "", post.
      * by exists (String c pre), post.
    + intros (pre & post & Heq). destruct pre as [|c' pre].
      * left. by exists post.
      * right. rewrite append_cons in Heq. injection Heq as _ ->.
        by exists pre, post.
Qed.

Section ScrapingMore.
Context `{PW : Playwright}.

Lemma js_callback_complete nodes a :
  a ∈ js_callback nodes → Article.title a ≠ "" ∧ Article.url a ≠ "".
Proof. unfold js_callback. by intros [? _]%list_elem_of_filter. Qed.

Lemma try_selector_inv pg sel r :
  try_selector pg sel = Return r →
  match r with
  | Some links =>
      links ≠ [] ∧
      ∃ nodes, query_selector_all pg sel = Return nodes ∧
               links = js_callback nodes
  | None => no_links pg sel
  end.
Proof.
  unfold try_selector, eval_on_selector_all, no_links.
  destruct (query_selector_all pg sel) as [nodes|e]; run.
  - case_bool_decide as Hne; intros [= <-].
    + split; [done|]. by exists nodes.
    + by destruct (js_callback nodes); [|destruct Hne].
  - by intros [= <-].
Qed.

Lemma selector_loop_inv pg selectors articles asked :
  selector_loop pg selectors = Return (articles, asked) →
  (articles = [] ∧ asked = selectors ∧ Forall (no_links pg) selectors) ∨
  (∃ pre sel post nodes,
      selectors = pre ++ sel :: post ∧
      asked = pre ++ [sel] ∧
      Forall (no_links pg) pre ∧
      query_selector_all pg sel = Return nodes ∧
      articles = js_callback nodes ∧
      articles ≠ []).
Proof.
  revert articles asked.
  induction selectors as [|sel rest IH]; intros articles asked; simpl.
  - intros [= <- <-]. by left.
  - destruct (try_selector pg sel) as [[links|]|e] eqn:Htry; run; [..|done].
    + intros [= <- <-]. apply try_selector_inv in Htry as (Hne & nodes & Hq & ->).
      right. by exists [], sel, rest, nodes.
    + apply try_selector_inv in Htry.
      destruct (selector_loop pg rest) as [[found asked']|e]; run; [|done].
      intros [= <- <-].
      destruct (IH found asked' eq_refl)
        as [(-> & -> & Hall)|(pre & s & post & nodes & -> & -> & Hpre & ?)].
      * left. split; [done|]. split; [done|]. by constructor.
      * right. exists (sel :: pre), s, post, nodes.
        split; [done|]. split; [done|]. split; [by constructor|done].
Qed.

Lemma fetch_links_try_inv url articles :
  fetch_links_try url = Return articles →
  ∃ br pg domain found asked,
    session_ok url br pg domain ∧
    selector_loop pg (selectors_for domain) = Return (found, asked) ∧
    articles = take 10 found.
Proof.
  unfold fetch_links_try, with_sync_playwright, session_ok.
  destruct sync_playwright_enter as [[]|?] eqn:Henter; run; [|done].
  destruct (open_page url) as [[br pg]|?] eqn:Hopen; run;
    [|by destruct sync_playwright_exit].
  destruct (urlparse_netloc url) as [domain|?] eqn:Hdom; run;
    [|by destruct sync_playwright_exit].
  destruct (selector_loop pg (selectors_for domain))
    as [[found asked]|?] eqn:Hloop; run;
    [|by destruct sync_playwright_exit].
  destruct (browser_close br) as [[]|?] eqn:Hclose; run;
    [|by destruct sync_playwright_exit].
  destruct (print_stdout _ (take 10 found)) as [[]|?] eqn:Hprint; run;
    [|by destruct sync_playwright_exit].
  destruct sync_playwright_exit as [[]|?] eqn:Hexit; [|done].
  intros [= <-]. exists br, pg, domain, found, asked.
  split; [|done]. do 4 (split; [done|]). split; [|done].
  intros found' asked' Hloop'. rewrite Hloop in Hloop'.
  by injection Hloop' as <- _.
Qed.

(** Whatever [fetch_links] returns that is not empty is the first 10
    surviving matches of one rule of the list, every rule before it
    found nothing, the whole session went through and nothing was
    reported on the page. *)
Theorem fetch_links_nonempty_inv url articles lg :
  fetch_links url = (Return articles, lg) →
  articles ≠ [] →
  lg = [] ∧
  ∃ br pg domain pre sel post nodes,
    session_ok url br pg domain ∧
    selectors_for domain = pre ++ sel :: post ∧
    Forall (no_links pg) pre ∧
    query_selector_all pg sel = Return nodes ∧
    js_callback nodes ≠ [] ∧
    articles = take 10 (js_callback nodes).
Proof.
  unfold fetch_links.
  destruct (fetch_links_try url) as [found|e] eqn:Htry; run;
    intros [= <- <-] Hne; [|done].
  split; [done|].
  apply fetch_links_try_inv in Htry
    as (br & pg & domain & arts & asked & Hok & Hloop & ->).
  apply selector_loop_inv in Hloop
    as [(-> & _)|(pre & sel & post & nodes & ? & _ & ? & ? & -> & ?)].
  - by destruct Hne.
  - by exists br, pg, domain, pre, sel, post, nodes.
Qed.

Lemma fetch_links_try_complete url articles a :
  fetch_links_try url = Return articles →
  a ∈ articles →
  Article.title a ≠ "" ∧ Article.url a ≠ "".
Proof.
  intros (br & pg & domain & found & asked & _ & Hloop & ->)%fetch_links_try_inv.
  intros Ha%subseteq_take.
  apply selector_loop_inv in Hloop
    as [(-> & _)|(pre & sel & post & nodes & _ & _ & _ & _ & -> & _)].
  - by apply elem_of_nil in Ha.
  - by apply (js_callback_complete nodes).
Qed.

Lemma fetched_complete url a :
  a ∈ fetched url → Article.title a ≠ "" ∧ Article.url a ≠ "".
Proof.
  unfold fetched, fetch_links.
  destruct (fetch_links_try url) as [articles|e] eqn:Htry; run.
  - by apply (fetch_links_try_complete url articles).
  - by intros ?%elem_of_nil.
Qed.

(** Every article [fetch_links] returns has a title and a url that are
    not empty. *)
Theorem fetch_links_articles_complete url articles lg a :
  fetch_links url = (Return articles, lg) →
  a ∈ articles →
  Article.title a ≠ "" ∧ Article.url a ≠ "".
Proof.
  unfold fetch_links.
  destruct (fetch_links_try url) as [found|e] eqn:Htry; run;
    intros [= <- <-] Ha.
  - by apply (fetch_links_try_complete url found).
  - by apply elem_of_nil in Ha.
Qed.

(** When [browser.close()] raises after the rules found links, the links
    are lost: [fetch_links] reports the error and returns the empty
    list. *)
Theorem close_failure_discards_links url br pg domain articles asked e :
  sync_playwright_enter = Return () →
  open_page url = Return (br, pg) →
  urlparse_netloc url = Return domain →
  selector_loop pg (selectors_for domain) = Return (articles, asked) →
  browser_close br = Raise e →
  sync_playwright_exit = Return () →
  fetch_links url
  = (Return [], [St_error ("Error scraping " +:+ url +:+ ": " +:+ e)]).
Proof.
  intros Henter Hopen Hdom Hloop Hclose Hexit. apply fetch_links_failed.
  unfold fetch_links_try, with_sync_playwright.
  rewrite Henter, Hopen. run. rewrite Hdom. run. rewrite Hloop. run.
  rewrite Hclose. run. by rewrite Hexit.
Qed.

(** When the [print] of the list raises after the rules found links and
    the browser was closed, the links are lost as well: [fetch_links]
    reports the error and returns the empty list. *)
Theorem print_failure_discards_links url br pg domain articles asked e :
  sync_playwright_enter = Return () →
  open_page url = Return (br, pg) →
  urlparse_netloc url = Return domain →
  selector_loop pg (selectors_for domain) = Return (articles, asked) →
  browser_close br = Return () →
  print_stdout ("Scraped from " +:+ url +:+ ":") (take 10 articles)
  = Raise e →
  sync_playwright_exit = Return () →
  fetch_links url
  = (Return [], [St_error ("Error scraping " +:+ url +:+ ": " +:+ e)]).
Proof.
  intros Henter Hopen Hdom Hloop Hclose Hprint Hexit.
  apply fetch_links_failed.
  unfold fetch_links_try, with_sync_playwright.
  rewrite Henter, Hopen. run. rewrite Hdom. run. rewrite Hloop. run.
  rewrite Hclose. run. rewrite Hprint. run. by rewrite Hexit.
Qed.

(** [prepare_page_for_site] raises only if the url cannot be parsed: a
    wait or a scroll that fails is passed over.  The page is left as it
    is for a host that contains neither ["npr.org"] nor ["news.sky.com"],
    and for every host when the calls the function makes for it raise:
    the wait for ["h2.title a"] on a host that contains ["npr.org"], the
    scroll script on a host that contains ["news.sky.com"]. *)
Theorem prepare_page_never_fails pg url domain :
  urlparse_netloc url = Return domain →
  (∃ pg', prepare_page_for_site pg url = Return pg') ∧
  ((¬ ∃ pre post, domain = pre +:+ "npr.org" +:+ post) →
   (¬ ∃ pre post, domain = pre +:+ "news.sky.com" +:+ post) →
   prepare_page_for_site pg url = Return pg) ∧
  (((∃ pre post, domain = pre +:+ "npr.org" +:+ post) →
    ∃ e, wait_for_selector pg "h2.title a" 5000 = Raise e) →
   ((∃ pre post, domain = pre +:+ "news.sky.com" +:+ post) →
    ∃ e, evaluate pg "window.scrollTo(0, document.body.scrollHeight)"
         = Raise e) →
   prepare_page_for_site pg url = Return pg).
Proof.
  intros Hdom. unfold prepare_page_for_site. rewrite Hdom. run.
  split; [by eexists|]. split.
  - intros Hnpr Hsky.
    destruct (str_in "npr.org" domain) eqn:H1;
      [by destruct Hnpr; apply str_in_spec|].
    destruct (str_in "news.sky.com" domain) eqn:H2;
      [by destruct Hsky; apply str_in_spec|].
    done.
  - intros Hwait Hscroll.
    destruct (str_in "npr.org" domain) eqn:H1.
    + destruct (Hwait (proj1 (str_in_spec _ _) H1)) as [e1 ->]. simpl.
      destruct (str_in "news.sky.com" domain) eqn:H2; [|done].
      by destruct (Hscroll (proj1 (str_in_spec _ _) H2)) as [e2 ->].
    + destruct (str_in "news.sky.com" domain) eqn:H2; [|done].
      by destruct (Hscroll (proj1 (str_in_spec _ _) H2)) as [e2 ->].
Qed.

(** [create_context] asks for the desktop identity exactly when the host
    contains ["upi.com"] somewhere, and for the default context for
    every other host. *)
Theorem create_context_identity url domain br :
  chromium_launch = Return br →
  urlparse_netloc url = Return domain →
  ((∃ pre post, domain = pre +:+ "upi.com" +:+ post) →
   create_context url
   = (ctx ← new_context br (Some upi_options); Return (br, ctx))) ∧
  ((¬ ∃ pre post, domain = pre +:+ "upi.com" +:+ post) →
   create_context url = (ctx ← new_context br None; Return (br, ctx))).
Proof.
  intros Hlaunch Hdom. unfold create_context. rewrite Hlaunch, Hdom. run.
  split.
  - intros Hin%str_in_spec. by rewrite Hin.
  - intros Hout. destruct (str_in "upi.com" domain) eqn:Hin; [|done].
    by destruct Hout; apply str_in_spec.
Qed.

End ScrapingMore.

(** ** Change detection *)

Lemma filter_ext_elem {A} (P Q : A → Prop)
    `{!∀ x, Decision (P x)} `{!∀ x, Decision (Q x)} (l : list A) :
  (∀ x, x ∈ l → P x ↔ Q x) → filter P l = filter Q l.
Proof.
  induction l as [|x l IH]; intros Hext; [done|].
  assert (Htail : filter P l = filter Q l).
  { apply IH. intros y Hy. apply Hext. by right. }
  destruct (decide (P x)) as [HP|HP].
  - rewrite !filter_cons_True; [by rewrite Htail|by apply Hext; [left|]|done].
  - rewrite !filter_cons_False; [done| |done].
    intros HQ. apply HP, Hext; [left|done].
Qed.

Lemma size_list_to_set_le (l : list string) :
  size (list_to_set l : gset string) ≤ length l.
Proof.
  induction l as [|x l IH]; [by rewrite list_to_set_nil, size_empty|].
  rewrite list_to_set_cons, size_union_alt, size_singleton. simpl.
  assert (list_to_set l ∖ {[x]} ⊆ (list_to_set l : gset string)) as Hsub
    by (intros y [Hy _]%elem_of_difference; exact Hy).
  apply subseteq_size in Hsub. lia.
Qed.

Section CheckMore.
Context `{PW : Playwright}.
Variable list_of_set : gset string → list string.
Hypothesis list_of_set_perm : ∀ X, list_of_set X ≡ₚ elements X.

Local Abbreviation urls_of articles :=
  (list_to_set (Article.url <$> articles) : gset string).

Lemma written_entry_of_articles articles :
  articles ≠ [] →
  length articles ≤ 10 →
  written_entry (list_of_set (urls_of articles)).
Proof.
  intros Hne Hlen. unfold written_entry. split; [|split].
  - destruct articles as [|a rest]; [done|]. intros Hnil.
    pose proof (list_of_set_perm (urls_of (a :: rest))) as Hperm.
    rewrite Hnil in Hperm. apply Permutation_length in Hperm.
    assert (Article.url a ∈ elements (urls_of (a :: rest))) as Hin.
    { apply elem_of_elements. rewrite fmap_cons, list_to_set_cons.
      apply elem_of_union_l. by apply elem_of_singleton. }
    destruct (elements (urls_of (a :: rest))); [|done].
    by apply elem_of_nil in Hin.
  - rewrite list_of_set_perm. apply NoDup_elements.
  - rewrite list_of_set_perm.
    pose proof (size_list_to_set_le (Article.url <$> articles)) as Hsize.
    rewrite length_fmap in Hsize. unfold size, set_size in Hsize.
    simpl in Hsize. lia.
Qed.

Lemma check_body_reported url articles v :
  ∃ new_articles,
    new_articles_global (check_body list_of_set url articles v)
    = new_articles_global v ++ new_articles ∧
    new_articles `sublist_of` articles.
Proof.
  unfold check_body. case_bool_decide.
  - exists []. by rewrite app_nil_r; split; [|apply sublist_nil_l].
  - destruct (state v !! url); simpl; eexists; split; try done.
    apply sublist_filter.
Qed.

Lemma run_loop_entries urls v k entry :
  state (run_loop list_of_set urls v) !! k = Some entry →
  state v !! k = Some entry ∨ (k ∈ urls ∧ written_entry entry).
Proof.
  revert entry. induction urls as [|last urls IH] using rev_ind;
    intros entry; [by left|].
  rewrite (run_loop_snoc list_of_set).
  destruct (decide (fetched last = [])) as [Hnil|Hne].
  - rewrite Hnil, (check_body_nil list_of_set). intros Hk.
    destruct (IH _ Hk) as [?|[? ?]]; [by left|right].
    split; [|done]. apply elem_of_app. by left.
  - destruct (decide (k = last)) as [->|Hother].
    + rewrite (check_body_state_eq list_of_set) by done. intros [= <-].
      right. split; [apply elem_of_app; right; by left|].
      apply written_entry_of_articles; [done|apply fetched_length].
    + rewrite (check_body_state_ne list_of_set) by done. intros Hk.
      destruct (IH _ Hk) as [?|[? ?]]; [by left|right].
      split; [|done]. apply elem_of_app. by left.
Qed.

Lemma run_loop_reported urls v a :
  a ∈ new_articles_global (run_loop list_of_set urls v) →
  a ∈ new_articles_global v ∨ ∃ url, url ∈ urls ∧ a ∈ fetched url.
Proof.
  induction urls as [|last urls IH] using rev_ind; [by left|].
  rewrite (run_loop_snoc list_of_set).
  destruct (check_body_reported last (fetched last) (run_loop list_of_set urls v))
    as (new & -> & Hsub).
  intros [Hold|Hnew]%elem_of_app.
  - destruct (IH Hold) as [?|(u & ? & ?)]; [by left|right].
    exists u. split; [|done]. apply elem_of_app. by left.
  - right. exists last. split; [apply elem_of_app; right; by left|].
    by eapply sublist_subseteq.
Qed.

Lemma run_loop_reported_length urls v :
  length (new_articles_global (run_loop list_of_set urls v))
  ≤ length (new_articles_global v) + 10 * length urls.
Proof.
  induction urls as [|last urls IH] using rev_ind; [simpl; lia|].
  rewrite (run_loop_snoc list_of_set).
  destruct (check_body_reported last (fetched last) (run_loop list_of_set urls v))
    as (new & -> & Hsub).
  apply sublist_length in Hsub. pose proof (fetched_length last).
  rewrite !length_app. simpl. lia.
Qed.

Lemma run_loop_keys urls v k :
  is_Some (state (run_loop list_of_set urls v) !! k) ↔
  is_Some (state v !! k) ∨ (k ∈ urls ∧ fetched k ≠ []).
Proof.
  induction urls as [|last urls IH] using rev_ind.
  - split; [by left|]. intros [?|[Hin _]]; [done|].
    by apply elem_of_nil in Hin.
  - rewrite (run_loop_snoc list_of_set), elem_of_app, list_elem_of_singleton.
    destruct (decide (k = last)) as [->|Hother].
    + destruct (decide (fetched last = [])) as [Hnil|Hne].
      * rewrite Hnil, (check_body_nil list_of_set), IH. naive_solver.
      * rewrite (check_body_state_eq list_of_set) by done. naive_solver.
    + rewrite (check_body_state_ne list_of_set), IH by done. naive_solver.
Qed.

Lemma run_loop_skip urls v :
  run_loop list_of_set urls v = run_loop list_of_set (filter (λ url, fetched url ≠ []) urls) v.
Proof.
  revert v. induction urls as [|url rest IH]; intros v; [done|].
  rewrite (run_loop_cons list_of_set).
  destruct (decide (fetched url = [])) as [Hnil|Hne].
  - rewrite filter_cons_False by (intros ?; done).
    by rewrite Hnil, (check_body_nil list_of_set).
  - rewrite filter_cons_True by done.
    by rewrite (run_loop_cons list_of_set), IH.
Qed.

Lemma loop_log_cons url rest :
  loop_log (url :: rest)
  = [St_write ("🔍 " +:+ url)] ++ ((fetch_links url).2 ++ loop_log rest).
Proof. done. Qed.

Lemma check_loop_log urls v :
  check_loop list_of_set urls v
  = (Return (run_loop list_of_set urls v), loop_log urls).
Proof.
  revert v. induction urls as [|url rest IH]; intros v; [done|].
  rewrite (check_loop_cons list_of_set), (run_loop_cons list_of_set).
  rewrite loop_log_cons.
  assert (fetch_links url = (Return (fetched url), (fetch_links url).2))
    as Hfetch.
  { destruct (fetch_links_returns url) as [lg Hfetch]. by rewrite Hfetch. }
  eapply ui_bind_return; [done|].
  eapply ui_bind_return; [exact Hfetch|apply IH].
Qed.

Lemma check_now_log urls st :
  let v :=
    run_loop list_of_set urls {| state := st; new_articles_global := [] |} in
  check_now list_of_set urls st
  = (Return {| saved_state := state v;
               session_new_articles := new_articles_global v |},
     St_write "Checking…" :: loop_log urls ++
     [St_success "Done!";
      if bool_decide (new_articles_global v ≠ [])
      then St_write "✅ New articles found:"
      else St_write "ℹ️ No new articles found."]).
Proof.
  intros v. unfold check_now.
  change (St_write "Checking…" :: loop_log urls ++ ?l)
    with ([St_write "Checking…"] ++ (loop_log urls ++ l)).
  eapply ui_bind_return; [done|].
  eapply ui_bind_return; [apply check_loop_log|].
  change [St_success "Done!"; ?x] with ([St_success "Done!"] ++ ([x] ++ [])).
  eapply ui_bind_return; [done|].
  eapply ui_bind_return; done.
Qed.

End CheckMore.

Section CheckMoreClaims.
Context `{PW : Playwright}.
Variable list_of_set : gset string → list string.
Hypothesis list_of_set_perm : ∀ X, list_of_set X ≡ₚ elements X.

Lemma fetch_links_log url :
  (fetch_links url).2
  = match fetch_links_try url with
    | Return _ => []
    | Raise e => [St_error ("Error scraping " +:+ url +:+ ": " +:+ e)]
    end.
Proof. unfold fetch_links. by destruct (fetch_links_try url). Qed.

Lemma elem_of_loop_log ev urls :
  ev ∈ loop_log urls ↔ ∃ url, url ∈ urls ∧ ev ∈ source_log url.
Proof.
  induction urls as [|u rest IH].
  - split; [by intros ?%elem_of_nil|]. by intros (url & ?%elem_of_nil & _).
  - change (loop_log (u :: rest)) with (source_log u ++ loop_log rest).
    rewrite elem_of_app, IH. split.
    + intros [Hev|(url & Hurl & Hev)].
      * exists u. split; [left|done].
      * exists url. split; [by right|done].
    + intros (url & [->|Hurl]%elem_of_cons & Hev); [by left|right].
      by exists url.
Qed.

(** After a run of the handler every entry of the state is either the
    entry the run started with or, for a monitored url, a list the run
    wrote: not empty, without repetition, of at most 10 urls. *)
Theorem snapshots_stay_small urls st :
  ∃ r lg,
    check_now list_of_set urls st = (Return r, lg) ∧
    ∀ k entry,
      saved_state r !! k = Some entry →
      st !! k = Some entry ∨ (k ∈ urls ∧ written_entry entry).
Proof.
  eexists _, _. split; [apply check_now_log|]. simpl.
  intros k entry Hk.
  by apply (run_loop_entries list_of_set list_of_set_perm) in Hk.
Qed.

(** The handler reports only articles that [fetch_links] returned for a
    monitored url in this run, each with a title and a url, and at most
    10 for each url of the list. *)
Theorem reported_articles_were_fetched urls st :
  ∃ r lg,
    check_now list_of_set urls st = (Return r, lg) ∧
    length (session_new_articles r) ≤ 10 * length urls ∧
    ∀ a,
      a ∈ session_new_articles r →
      Article.title a ≠ "" ∧ Article.url a ≠ "" ∧
      ∃ url articles lg',
        url ∈ urls ∧ fetch_links url = (Return articles, lg') ∧ a ∈ articles.
Proof.
  eexists _, _. split; [apply check_now_log|]. simpl. split.
  - etrans; [apply run_loop_reported_length|]. simpl. lia.
  - intros a Ha. apply run_loop_reported in Ha as [Ha|(url & Hurl & Ha)].
    { by apply elem_of_nil in Ha. }
    destruct (fetch_links_returns url) as [lg' Hfetch].
    destruct (fetched_complete url a Ha).
    split; [done|]. split; [done|]. by exists url, (fetched url), lg'.
Qed.

(** Only the last extraction counts: after a check with the fresh list
    [first], the next check with the fresh list [second] reports the
    articles of [second] whose url is not among the urls of [first],
    whatever was stored before the first check, and the entry becomes the
    urls of [second]. *)
Theorem only_last_extraction_counts url first second v :
  first ≠ [] →
  second ≠ [] →
  let v1 := check_body list_of_set url first v in
  let v2 := check_body list_of_set url second v1 in
  new_articles_global v2
  = new_articles_global v1 ++
    filter (λ a, Article.url a ∉ Article.url <$> first) second ∧
  state v2
  = <[url := list_of_set (list_to_set (Article.url <$> second))]> (state v).
Proof.
  intros Hfirst Hsecond v1 v2.
  pose proof (check_body_state_eq list_of_set url first v Hfirst) as Hst.
  fold v1 in Hst. subst v2.
  rewrite (check_body_seen list_of_set _ _ _ _ Hst Hsecond).
  rewrite (set_of_list_of_set list_of_set list_of_set_perm). simpl. split.
  - f_equal. apply filter_ext_elem. intros a Ha.
    rewrite elem_of_difference, !elem_of_list_to_set. split; [tauto|].
    intros Hnew. split; [|done]. apply list_elem_of_fmap. by exists a.
  - subst v1. unfold check_body. rewrite bool_decide_eq_false_2 by done.
    destruct (state v !! url); simpl; apply insert_insert_eq.
Qed.

(** A run of the handler deletes no entry of the state, and creates one
    exactly for the monitored urls whose fetched list is not empty. *)
Theorem entries_are_never_deleted urls st :
  ∃ r lg,
    check_now list_of_set urls st = (Return r, lg) ∧
    ∀ k,
      is_Some (saved_state r !! k) ↔
      is_Some (st !! k) ∨ (k ∈ urls ∧ (fetch_links k).1 ≠ Return []).
Proof.
  eexists _, _. split; [apply check_now_log|]. simpl. intros k.
  rewrite run_loop_keys. simpl.
  assert (fetched k ≠ [] ↔ (fetch_links k).1 ≠ Return []) as ->; [|done].
  unfold fetched. destruct (fetch_links_returns k) as [lg ->]. simpl.
  split; intros Hne; congruence.
Qed.

(** The monitored urls whose fetch gave nothing, or failed, have no part
    in the result: the run saves and reports the same as a run over the
    list without them. *)
Theorem skipped_sources_do_not_matter urls st :
  (check_now list_of_set urls st).1
  = (check_now list_of_set (filter (λ url, fetched url ≠ []) urls) st).1.
Proof. rewrite !check_now_log. simpl. by rewrite <-run_loop_skip. Qed.

(** What a run of the handler writes on the page: it starts with
    "Checking…", names every monitored url, shows an error for a url
    exactly when its fetch failed, and ends with the line that says
    whether new articles were found. *)
Theorem check_now_page_output urls st :
  ∃ r lg,
    check_now list_of_set urls st = (Return r, lg) ∧
    head lg = Some (St_write "Checking…") ∧
    last lg
    = Some (if bool_decide (session_new_articles r ≠ [])
            then St_write "✅ New articles found:"
            else St_write "ℹ️ No new articles found.") ∧
    (∀ url, url ∈ urls → St_write ("🔍 " +:+ url) ∈ lg) ∧
    (∀ msg,
        St_error msg ∈ lg ↔
        ∃ url e,
          url ∈ urls ∧ fetch_links_try url = Raise e ∧
          msg = "Error scraping " +:+ url +:+ ": " +:+ e).
Proof.
  eexists _, _. split; [apply check_now_log|]. simpl.
  split; [done|]. split; [|split].
  - match goal with
    | |- last (?a :: ?l ++ [?b; ?x]) = _ =>
        replace (a :: l ++ [b; x]) with ((a :: l ++ [b]) ++ [x])
          by (simpl; by rewrite <-app_assoc)
    end.
    apply last_snoc.
  - intros url Hurl. right. apply elem_of_app. left.
    apply elem_of_loop_log. exists url. split; [done|]. by left.
  - intros msg. rewrite elem_of_cons, elem_of_app, elem_of_loop_log.
    split.
    + intros [?|[(url & Hurl & Hev)|Hev]]; [done| |].
      * unfold source_log in Hev. rewrite elem_of_cons, fetch_links_log in Hev.
        destruct Hev as [?|Hev]; [done|].
        destruct (fetch_links_try url) as [?|e] eqn:Htry.
        { by apply elem_of_nil in Hev. }
        apply list_elem_of_singleton in Hev as [= ->]. by exists url, e.
      * apply elem_of_cons in Hev as [?|Hev]; [done|].
        apply list_elem_of_singleton in Hev. by case_bool_decide.
    + intros (url & e & Hurl & Htry & ->). right. left.
      exists url. split; [done|]. right. rewrite fetch_links_log, Htry.
      by left.
Qed.

End CheckMoreClaims.


(** ** Saving and loading *)

Section FilesFacts.
Context {data : Type} `{JS : Json data} `{FN : FileNames}.

(** As long as reading undoes writing: what was saved under a path is
    what is loaded under every path that names the same file; a save
    leaves what is loaded from the other files; a missing file gives the
    default, and a file that cannot be read makes [load_json] raise
    instead of giving the default; after any sequence of saves the value
    loaded is the one of the last save to that file, if there was one. *)
Theorem load_json_after_save files path (d default : data) :
  (∀ d, json_load (json_dump d) = Return d) →
  (∀ alias,
      file_of alias = file_of path →
      load_json (save_json files path d) alias default = Return d) ∧
  (∀ other,
      file_of other ≠ file_of path →
      load_json (save_json files path d) other default
      = load_json files other default) ∧
  (files !! file_of path = None →
   load_json files path default = Return default) ∧
  (∀ text e,
      files !! file_of path = Some text →
      json_load text = Raise e →
      load_json files path default = Raise e) ∧
  (∀ writes : list (string * data),
      load_json (foldl (λ fs w, save_json fs w.1 w.2) files writes)
        path default
      = match last (filter (λ w, file_of w.1 = file_of path) writes) with
        | Some w => Return w.2
        | None => load_json files path default
        end).
Proof.
  intros Hround.
  assert (Hsame : ∀ fs p alias x,
            file_of alias = file_of p →
            load_json (save_json fs p x) alias default = Return x).
  { intros fs p alias x Heq. unfold load_json, save_json.
    by rewrite Heq, lookup_insert_eq. }
  assert (Hother : ∀ fs p other x,
            file_of other ≠ file_of p →
            load_json (save_json fs p x) other default
            = load_json fs other default).
  { intros fs p other x Hne. unfold load_json, save_json.
    by rewrite lookup_insert_ne. }
  split; [by intros alias ?; apply Hsame|].
  split; [by intros other ?; apply Hother|].
  split; [unfold load_json; by intros ->|].
  split; [unfold load_json; by intros text e -> ->|].
  induction writes as [|w writes IH] using rev_ind; [done|].
  rewrite foldl_app, filter_app. simpl.
  destruct (decide (file_of w.1 = file_of path)) as [Heq|Hne].
  - rewrite filter_cons_True, filter_nil, last_snoc by done.
    by apply Hsame.
  - rewrite filter_cons_False, filter_nil, app_nil_r by done.
    rewrite Hother by done. exact IH.
Qed.

End FilesFacts.

(** ** Adding a url *)

Lemma add_url_accepted new_url urls :
  new_url ≠ "" → new_url ∉ urls →
  add_url new_url urls
  = {| urls_after := urls ++ [new_url];
       urls_saved := Some (urls ++ [new_url]);
       add_shown := Notice_success "Added!" |}.
Proof. intros ??. unfold add_url. by rewrite bool_decide_eq_true_2. Qed.

Lemma add_url_refused new_url urls :
  new_url = "" ∨ new_url ∈ urls →
  add_url new_url urls
  = {| urls_after := urls;
       urls_saved := None;
       add_shown := Notice_warning "URL already exists or empty" |}.
Proof.
  intros Hbad. unfold add_url. rewrite bool_decide_eq_false_2; [done|].
  intros [??]. by destruct Hbad.
Qed.

Lemma add_url_cases (new_url : string) (urls : list string) :
  (new_url ≠ "" ∧ new_url ∉ urls) ∨ (new_url = "" ∨ new_url ∈ urls).
Proof.
  destruct (decide (new_url = "")); [by right; left|].
  destruct (decide (new_url ∈ urls)); [by right; right|by left].
Qed.

Lemma add_url_clean new_url urls :
  NoDup urls → "" ∉ urls →
  NoDup (urls_after (add_url new_url urls)) ∧
  "" ∉ urls_after (add_url new_url urls).
Proof.
  intros Hnd Hempty.
  destruct (add_url_cases new_url urls) as [[Hne Hnew]|Hbad].
  - rewrite (add_url_accepted new_url urls Hne Hnew). simpl. split.
    + apply NoDup_app. split; [done|]. split; [|apply NoDup_singleton].
      by intros u Hu ->%list_elem_of_singleton.
    + intros [?|Heq%list_elem_of_singleton]%elem_of_app; [done|].
      by destruct Hne.
  - by rewrite (add_url_refused new_url urls Hbad).
Qed.

Lemma add_url_elem new_url urls u :
  u ∈ urls_after (add_url new_url urls) ↔
  u ∈ urls ∨ (u = new_url ∧ u ≠ "").
Proof.
  destruct (add_url_cases new_url urls) as [[Hne Hnew]|Hbad].
  - rewrite (add_url_accepted new_url urls Hne Hnew). simpl.
    rewrite elem_of_app, list_elem_of_singleton. naive_solver.
  - rewrite (add_url_refused new_url urls Hbad). simpl. naive_solver.
Qed.

Lemma add_url_prefix new_url urls :
  urls `prefix_of` urls_after (add_url new_url urls).
Proof.
  destruct (add_url_cases new_url urls) as [[Hne Hnew]|Hbad].
  - rewrite (add_url_accepted new_url urls Hne Hnew). by apply prefix_app_r.
  - by rewrite (add_url_refused new_url urls Hbad).
Qed.

(** Any number of clicks on "Add URL" keeps the list free of repetitions
    and of the empty url, keeps what was listed at the front in its
    order, and adds exactly the inputs that are not empty. *)
Theorem add_url_keeps_list_clean (inputs urls : list string) :
  NoDup urls →
  "" ∉ urls →
  let urls' :=
    foldl (λ urls new_url, urls_after (add_url new_url urls)) urls inputs in
  NoDup urls' ∧
  ("" ∉ urls') ∧
  urls `prefix_of` urls' ∧
  (∀ u, u ∈ urls' ↔ u ∈ urls ∨ (u ∈ inputs ∧ u ≠ "")).
Proof.
  revert urls. induction inputs as [|new_url inputs IH]; intros urls Hnd He.
  - simpl. split; [done|]. split; [done|]. split; [done|].
    intros u. split; [by left|]. intros [?|[?%elem_of_nil _]]; done.
  - simpl. destruct (add_url_clean new_url urls Hnd He) as [Hnd' He'].
    destruct (IH _ Hnd' He') as (? & ? & Hpre & Hin).
    split; [done|]. split; [done|]. split.
    + etrans; [apply add_url_prefix|done].
    + intros u. rewrite Hin, add_url_elem, elem_of_cons. naive_solver.
Qed.

(** A second click on "Add URL" with the same input changes nothing,
    writes no file and shows the warning, whatever the first click did. *)
Theorem add_url_twice new_url urls :
  let once := add_url new_url urls in
  let twice := add_url new_url (urls_after once) in
  urls_after twice = urls_after once ∧
  urls_saved twice = None ∧
  add_shown twice = Notice_warning "URL already exists or empty".
Proof.
  intros once twice. subst twice.
  rewrite (add_url_refused new_url (urls_after once)); [done|].
  destruct (decide (new_url = "")); [by left|right].
  apply add_url_elem. by right.
Qed.

(** ** The buttons of the new articles *)

Lemma no_underscore_char x : pretty_N_char x ≠ "_"%char.
Proof. unfold pretty_N_char. by repeat case_match. Qed.

Lemma no_underscore_pretty_N_go x s :
  no_underscore s → no_underscore (pretty_N_go x s).
Proof.
  revert s. induction (N.lt_wf_0 x) as [x _ IH]; intros s Hs.
  assert (x = 0 ∨ 0 < x)%N as [->|Hpos] by lia.
  - by rewrite pretty_N_go_0.
  - rewrite pretty_N_go_step by done. apply IH.
    + by apply N.div_lt.
    + split; [apply no_underscore_char|done].
Qed.

Lemma no_underscore_pretty (i : nat) : no_underscore (pretty i).
Proof.
  unfold pretty, pretty_nat, pretty, pretty_N.
  case_decide; [by repeat split|]. by apply no_underscore_pretty_N_go.
Qed.

Lemma append_nil (s : string) : "" +:+ s = s.
Proof. reflexivity. Qed.

Lemma last_underscore (s1 s2 d1 d2 : string) :
  no_underscore d1 → no_underscore d2 →
  s1 +:+ "_" +:+ d1 = s2 +:+ "_" +:+ d2 →
  s1 = s2 ∧ d1 = d2.
Proof.
  intros Hd1 Hd2. revert s2.
  assert (Hno : ∀ s d, no_underscore (s +:+ String "_" d) → False).
  { intros s d. induction s as [|c s IHs]; [by intros [? _]|].
    rewrite append_cons. intros [_ ?]. by apply IHs. }
  assert (Hsep : ∀ d, "_" +:+ d = String "_" d) by done.
  rewrite !Hsep. clear Hsep.
  induction s1 as [|c1 s1 IH]; intros [|c2 s2];
    rewrite ?append_cons, ?append_nil.
  - by intros [= ->].
  - intros [= <- ->]. by destruct (Hno s2 d2).
  - intros [= -> <-]. by destruct (Hno s1 d1).
  - intros [= -> Heq]. by destruct (IH _ Heq) as [-> ->].
Qed.

Lemma btn_key_inj i j a b :
  btn_key i a = btn_key j b → i = j ∧ Article.url a = Article.url b.
Proof.
  unfold btn_key. intros Heq.
  apply last_underscore in Heq as [Hurl Hidx];
    [|apply no_underscore_pretty..].
  split; [|done]. by apply (inj pretty).
Qed.

Lemma button_keys_lookup new_articles i :
  button_keys new_articles !! i = btn_key i <$> new_articles !! i.
Proof. apply list_lookup_imap. Qed.

(** The keys of the buttons are pairwise different, for every list of
    new articles, also one that holds the same url several times. *)
Theorem button_keys_distinct new_articles : NoDup (button_keys new_articles).
Proof.
  apply NoDup_alt. intros i j key. rewrite !button_keys_lookup.
  destruct (new_articles !! i) as [a|]; [|done].
  destruct (new_articles !! j) as [b|]; [|done].
  simpl. intros [= <-] [= Heq]. symmetry. by apply btn_key_inj in Heq as [? _].
Qed.

Lemma new_article_buttons_miss i new_articles key selected :
  (∀ j art, new_articles !! j = Some art → key ≠ btn_key (i + j) art) →
  new_article_buttons i new_articles (Some key) selected = selected.
Proof.
  revert i selected.
  induction new_articles as [|art rest IH]; intros i selected Hmiss; [done|].
  simpl. rewrite bool_decide_eq_false_2.
  - apply IH. intros j art' Hj. replace (S i + j) with (i + S j) by lia.
    by apply Hmiss.
  - intros [= Hkey]. apply (Hmiss 0 art); [done|].
    by rewrite Nat.add_0_r.
Qed.

Lemma new_article_buttons_hit i new_articles k art selected :
  new_articles !! k = Some art →
  new_article_buttons i new_articles (Some (btn_key (i + k) art)) selected
  = Some (Article.url art).
Proof.
  revert i k selected.
  induction new_articles as [|first rest IH]; intros i k selected; [done|].
  destruct k as [|k]; simpl.
  - intros [= ->]. rewrite Nat.add_0_r, bool_decide_eq_true_2 by done.
    apply new_article_buttons_miss. intros j art' _ Heq.
    apply btn_key_inj in Heq as [? _]. lia.
  - intros Hk. rewrite bool_decide_eq_false_2.
    + replace (i + S k) with (S i + k) by lia. by apply IH.
    + intros [= Heq]. apply btn_key_inj in Heq as [? _]. lia.
Qed.

(** A click on the button of the article at index [k] selects the url of
    that article, whatever was selected before and whatever else is in
    the list; without a click of one of these buttons the selection
    stays. *)
Theorem clicked_article_is_selected new_articles k art selected :
  new_articles !! k = Some art →
  new_article_buttons 0 new_articles (Some (btn_key k art)) selected
  = Some (Article.url art) ∧
  new_article_buttons 0 new_articles None selected = selected ∧
  (∀ key,
      key ∉ button_keys new_articles →
      new_article_buttons 0 new_articles (Some key) selected = selected).
Proof.
  intros Hk. split; [|split].
  - by apply (new_article_buttons_hit 0).
  - clear. generalize 0. revert selected.
    induction new_articles as [|a rest IH]; intros selected i; [done|].
    simpl. apply IH.
  - intros key Hkey. apply new_article_buttons_miss. intros j a Hj ->.
    apply Hkey. apply list_elem_of_lookup. exists j.
    by rewrite button_keys_lookup, Hj.
Qed.

(** ** The script across clicks *)

Lemma app_ok_fresh : app_ok {| app_urls := []; app_state := ∅ |}.
Proof.
  split; [constructor|]. split; [apply not_elem_of_nil|].
  intros k entry Hk. simpl in Hk. by rewrite lookup_empty in Hk.
Qed.

Section Clicks.
Variable list_of_set : gset string → list string.
Hypothesis list_of_set_perm : ∀ X, list_of_set X ≡ₚ elements X.

Lemma click_ok s a : app_ok s → app_ok (click list_of_set s a).
Proof.
  intros (Hnd & Hempty & Hstate). destruct a as [new_url|web]; simpl.
  - destruct (add_url_clean new_url _ Hnd Hempty) as [Hnd' Hempty'].
    split; [done|]. split; [done|]. simpl. intros k entry Hk.
    destruct (Hstate k entry Hk) as [Hin ?]. split; [|done].
    apply add_url_elem. by left.
  - rewrite (check_now_log (PW:=web)). simpl.
    split; [done|]. split; [done|]. intros k entry Hk.
    apply (run_loop_entries (PW:=web) list_of_set list_of_set_perm) in Hk
      as [Hk|[? ?]]; [|done].
    by apply Hstate.
Qed.

Lemma click_prefix s a :
  app_urls s `prefix_of` app_urls (click list_of_set s a).
Proof.
  destruct a as [new_url|web]; simpl; [apply add_url_prefix|].
  by rewrite (check_now_log (PW:=web)).
Qed.

(** Any sequence of clicks on "Add URL" and "Check now", each check
    against the pages as they are then, keeps the files well kept: the
    monitored urls without repetition and without the empty url, and a
    state whose entries all belong to monitored urls and are lists of at
    most 10 different urls, none empty.  No click removes or reorders a
    monitored url.  An installation without files is well kept. *)
Theorem clicks_keep_files_clean (actions : list action) (s : app) :
  app_ok s →
  app_ok (foldl (click list_of_set) s actions) ∧
  app_urls s `prefix_of` app_urls (foldl (click list_of_set) s actions).
Proof.
  revert s. induction actions as [|a actions IH]; intros s Hok; [done|].
  simpl. destruct (IH _ (click_ok s a Hok)) as [? Hpre]. split; [done|].
  etrans; [apply click_prefix|exact Hpre].
Qed.

End Clicks.

(** ** A run over several sources *)

Section RunMore.
Context `{PW : Playwright}.
Variable list_of_set : gset string → list string.

(** What the loop body reports for [url] on the state [st]. *)
Local Abbreviation reported_on st url :=
  (new_articles_global
     (check_body list_of_set url (fetched url)
        {| state := st; new_articles_global := [] |})).

Lemma check_body_reported_on url articles v st :
  state v !! url = st !! url →
  new_articles_global (check_body list_of_set url articles v)
  = new_articles_global v ++
    new_articles_global
      (check_body list_of_set url articles
         {| state := st; new_articles_global := [] |}).
Proof.
  intros Hst. unfold check_body. case_bool_decide; simpl.
  - by rewrite app_nil_r.
  - rewrite Hst. by destruct (st !! url).
Qed.

Lemma run_loop_independent urls v st :
  NoDup urls →
  (∀ url, url ∈ urls → state v !! url = st !! url) →
  new_articles_global (run_loop list_of_set urls v)
  = new_articles_global v ++ concat ((λ url, reported_on st url) <$> urls).
Proof.
  revert v. induction urls as [|url rest IH]; intros v Hnd Hst.
  - simpl. by rewrite app_nil_r.
  - apply NoDup_cons in Hnd as [Hfresh Hnd].
    rewrite (run_loop_cons list_of_set), IH; [|done|].
    + rewrite (check_body_reported_on url (fetched url) v st)
        by (apply Hst; left).
      simpl. by rewrite <-app_assoc.
    + intros u Hu. rewrite (check_body_state_ne list_of_set).
      * apply Hst. by right.
      * by intros ->.
Qed.

(** With no url twice in the monitored list the sources do not interfere:
    the run reports, in the order of the list, what the loop body reports
    for each url on the state the run started with. *)
Theorem sources_are_independent urls st :
  NoDup urls →
  ∃ r lg,
    check_now list_of_set urls st = (Return r, lg) ∧
    session_new_articles r = concat ((λ url, reported_on st url) <$> urls).
Proof.
  intros Hnd. eexists _, _. split; [apply check_now_log|]. simpl.
  by rewrite (run_loop_independent urls _ st).
Qed.

(** After a run the entry of every monitored url whose fetch gave a list
    that is not empty is a list of the urls of that list, wherever and
    however often the url stands in the monitored list. *)
Theorem check_now_stores_latest urls st k articles lg :
  k ∈ urls →
  fetch_links k = (Return articles, lg) →
  articles ≠ [] →
  ∃ r lg',
    check_now list_of_set urls st = (Return r, lg') ∧
    saved_state r !! k
    = Some (list_of_set (list_to_set (Article.url <$> articles))).
Proof.
  intros Hk Hfetch Hne. eexists _, _. split; [apply check_now_log|]. simpl.
  apply fetched_of in Hfetch as <-. by apply run_loop_stored.
Qed.

End RunMore.

(** ** The further statements on the small instances *)

Lemma fetch_links_nonempty_inv_witness :
  ∃ br pg domain pre sel post nodes,
    session_ok (PW:=Demo.playwright) Demo.example_news br pg domain ∧
    selectors_for domain = pre ++ sel :: post ∧
    Forall (no_links pg) pre ∧
    query_selector_all pg sel = Return nodes ∧
    js_callback nodes ≠ [] ∧
    [Demo.A1; Demo.B2] = take 10 (js_callback nodes).
Proof.
  apply (fetch_links_nonempty_inv (PW:=Demo.playwright)
           Demo.example_news [Demo.A1; Demo.B2] []).
  - reflexivity.
  - discriminate.
Defined.

Lemma fetch_links_articles_complete_witness :
  Article.title Demo.B2 ≠ "" ∧ Article.url Demo.B2 ≠ "".
Proof.
  apply (fetch_links_articles_complete (PW:=Demo.playwright)
           Demo.example_news [Demo.A1; Demo.B2] [] Demo.B2).
  - reflexivity.
  - right. left.
Defined.

Lemma close_failure_discards_links_witness :
  fetch_links (PW:=DemoClose.playwright) Demo.example_news
  = (Return [],
     [St_error "Error scraping https://example.com/news: Target closed"]).
Proof.
  apply (close_failure_discards_links (PW:=DemoClose.playwright)
           Demo.example_news tt Demo.example_news "example.com"
           [Demo.A1; Demo.B2]
           ["a[href*='/article']"; "a[href*='/story/']"; "a[href*='/weird']";
            "a[href*='/Odd_News']"; "a[href*='/offbeat']"; "h3 a"]
           "Target closed"); reflexivity.
Defined.

Lemma print_failure_discards_links_witness :
  fetch_links (PW:=DemoPrint.playwright) Demo.example_news
  = (Return [],
     [St_error
        "Error scraping https://example.com/news: [Errno 9] Bad file descriptor"]).
Proof.
  apply (print_failure_discards_links (PW:=DemoPrint.playwright)
           Demo.example_news tt Demo.example_news "example.com"
           [Demo.A1; Demo.B2]
           ["a[href*='/article']"; "a[href*='/story/']"; "a[href*='/weird']";
            "a[href*='/Odd_News']"; "a[href*='/offbeat']"; "h3 a"]
           "[Errno 9] Bad file descriptor"); reflexivity.
Defined.

Lemma prepare_page_never_fails_witness :
  prepare_page_for_site (PW:=DemoClose.playwright)
    "https://www.npr.org/sections/strange-news/"
    "https://www.npr.org/sections/strange-news/"
  = Return "https://www.npr.org/sections/strange-news/".
Proof.
  destruct (prepare_page_never_fails (PW:=DemoClose.playwright)
              "https://www.npr.org/sections/strange-news/"
              "https://www.npr.org/sections/strange-news/"
              "www.npr.org" eq_refl) as (_ & _ & Hsame).
  apply Hsame.
  - intros _. exists "Timeout 5000ms exceeded". reflexivity.
  - intros _. exists "Execution context was destroyed". reflexivity.
Defined.

Lemma create_context_identity_witness :
  create_context (PW:=Demo.playwright) "https://www.upi.com/Odd_News/"
  = (ctx ← new_context tt (Some upi_options); Return (tt, ctx)).
Proof.
  destruct (create_context_identity (PW:=Demo.playwright)
              "https://www.upi.com/Odd_News/" "www.upi.com" tt
              eq_refl eq_refl) as [Hspoof _].
  apply Hspoof. exists "www.", "". reflexivity.
Defined.

Lemma snapshots_stay_small_witness :
  ∃ r lg,
    check_now (PW:=Demo.playwright) elements [Demo.example_news] ∅
    = (Return r, lg) ∧
    ∀ k entry,
      saved_state r !! k = Some entry →
      (∅ : gmap string (list string)) !! k = Some entry ∨
      (k ∈ [Demo.example_news] ∧ written_entry entry).
Proof.
  exact (snapshots_stay_small (PW:=Demo.playwright) elements
           (λ X, reflexivity _) [Demo.example_news] ∅).
Defined.

(** [u2] was stored, is missing from the first fresh list and is back in
    the second: it is reported again. *)
Lemma only_last_extraction_counts_witness :
  let v1 := check_body elements "example.com" [Demo.A1] Demo.seen_u1_u2 in
  let v2 := check_body elements "example.com" [Demo.A1; Demo.B2] v1 in
  new_articles_global v1 = [] ∧ new_articles_global v2 = [Demo.B2].
Proof.
  destruct (only_last_extraction_counts elements
              (λ X, reflexivity _) "example.com"
              [Demo.A1] [Demo.A1; Demo.B2] Demo.seen_u1_u2)
    as [Hnew _].
  - discriminate.
  - discriminate.
  - split; [vm_compute; reflexivity|].
    rewrite Hnew. vm_compute. reflexivity.
Defined.

(** Saved under one name of the file, loaded under another. *)
Lemma load_json_after_save_witness :
  load_json (JS:=DemoJson.codec) (FN:=DemoJson.names)
    (save_json (JS:=DemoJson.codec) (FN:=DemoJson.names)
       ∅ "./monitor_state.json" true)
    "monitor_state.json" false
  = Return true.
Proof.
  destruct (load_json_after_save (JS:=DemoJson.codec) (FN:=DemoJson.names)
              ∅ "./monitor_state.json" true false) as [Hload _].
  - intros []; reflexivity.
  - apply Hload. reflexivity.
Defined.

Lemma add_url_keeps_list_clean_witness :
  let urls' :=
    foldl (λ urls new_url, urls_after (add_url new_url urls)) []
      ["a"; ""; "b"; "a"] in
  urls' = ["a"; "b"] ∧ NoDup urls'.
Proof.
  split; [reflexivity|].
  destruct (add_url_keeps_list_clean ["a"; ""; "b"; "a"] []) as [Hnd _].
  - constructor.
  - apply not_elem_of_nil.
  - exact Hnd.
Defined.

(** The same article twice in the list: the click on the second one. *)
Lemma clicked_article_is_selected_witness :
  new_article_buttons 0 [Demo.A1; Demo.B2; Demo.A1] (Some "u1_2") None
  = Some "u1".
Proof.
  destruct (clicked_article_is_selected [Demo.A1; Demo.B2; Demo.A1] 2
              Demo.A1 None eq_refl) as [Hsel _].
  exact Hsel.
Defined.

Lemma clicks_keep_files_clean_witness :
  app_ok
    (foldl (click elements) {| app_urls := []; app_state := ∅ |}
       [Add_URL Demo.example_news; Add_URL ""; Check_now Demo.playwright;
        Add_URL Demo.example_news; Check_now DemoClose.playwright]).
Proof.
  destruct (clicks_keep_files_clean elements (λ X, reflexivity _)
              [Add_URL Demo.example_news; Add_URL "";
               Check_now Demo.playwright; Add_URL Demo.example_news;
               Check_now DemoClose.playwright]
              {| app_urls := []; app_state := ∅ |} app_ok_fresh)
    as [Hok _].
  exact Hok.
Defined.

(** Two sources; only the second has anything new. *)
Lemma sources_are_independent_witness :
  ∃ r lg,
    check_now (PW:=Demo.playwright) elements
      [Demo.example_news; Demo.huffpost]
      {[ Demo.example_news := ["u1"; "u2"] ]}
    = (Return r, lg) ∧
    session_new_articles r
    = [] ++ take 10 (js_callback Demo.twelve) ++ [].
Proof.
  destruct (sources_are_independent (PW:=Demo.playwright) elements
              [Demo.example_news; Demo.huffpost]
              {[ Demo.example_news := ["u1"; "u2"] ]})
    as (r & lg & Hrun & Hnew).
  - repeat constructor; intros Hin.
    + apply list_elem_of_singleton in Hin. discriminate.
    + by apply elem_of_nil in Hin.
  - exists r, lg. split; [exact Hrun|]. rewrite Hnew.
    vm_compute. reflexivity.
Defined.

Lemma check_now_stores_latest_witness :
  ∃ r lg,
    check_now (PW:=Demo.playwright) elements
      [Demo.example_news; Demo.example_news] ∅
    = (Return r, lg) ∧
    saved_state r !! Demo.example_news
    = Some (elements (list_to_set ["u1"; "u2"] : gset string)).
Proof.
  apply (check_now_stores_latest (PW:=Demo.playwright) elements
           [Demo.example_news; Demo.example_news] ∅ Demo.example_news
           [Demo.A1; Demo.B2] []).
  - left.
  - reflexivity.
  - discriminate.
Defined.
